(** * redis-save-manager: the save orchestration loop, embedded and verified

    The program disables automatic persistence on a list of redis hosts and
    then runs BGSAVE on them one after the other, in a loop, until a deadline.

    The embedding follows [redis-save-manager.go] function by function:
    [readLines], the shuffle and the floor of the deadline of [main],
    [disablePersistence], [saveBlocking] and [do].

    The network, the clock and the channels are the environment. Every
    operation that can block -- a dial, a command, a [select] -- takes its
    answer from an oracle held in the [World], and records what it did in a
    time-stamped trace. The oracle is arbitrary: a dial or a command may
    fail or succeed, after any time within the time-out of the client (5 s
    for disablePersistence, 15 s for saveBlocking). A [select] returns with
    the case that is ready first: ctx.Done() is ready from the deadline on,
    a tick or a time.After from the time it is due; the oracle decides only
    between two cases that are ready at the same time. Time passes in the
    network and in the waits; the steps of the program itself take none.

    The two loops without end, the polling loop of [saveBlocking] and the
    loop of passes of [do], take a bound [fuel] on their iterations; a
    computation that has not returned within it is [Running], and its world
    shows what it has done so far. *)

From Stdlib Require Import ZArith List String Ascii Bool Lia.
From stdpp Require Import base tactics option list strings.

Local Open Scope string_scope.
Local Open Scope list_scope.
Local Open Scope Z_scope.

(** ** Durations: [time.Duration] counts nanoseconds *)

Definition Nanosecond : Z := 1.
Definition Second : Z := 1000000000 * Nanosecond.
Definition Minute : Z := 60 * Second.
Definition Hour : Z := 60 * Minute.

(** ** Errors *)

Inductive error :=
| DeadlineExceeded             (* context.DeadlineExceeded, the value of ctx.Err() *)
| ErrorString (msg : string)   (* errors.New(msg) *)
| NetError (msg : string)      (* an error of the redis client: dial, I/O, error reply *)
| FileError (msg : string).    (* an error of os.Open or of the bufio.Scanner *)

#[global] Instance error_eq_dec : EqDecision error.
Proof. solve_decision. Defined.

(** A Go [error] value is [option error]; [None] is [nil]. The values of
    type int64 (the last-save marker, the durations) are taken in [Z]: the
    program compares markers and never computes with them, and the times it
    adds stay far from 2^63 ns. *)

(** ** Replies of the redis client (radix.v2 [*redis.Resp]) *)

Inductive reply :=
| RErr (e : error)   (* Resp.Err is set: an I/O error or an error reply *)
| RInt (n : Z)       (* a reply that Int64() turns into n *)
| ROther.            (* any other reply: OK status, bulk data, ... *)

#[global] Instance reply_eq_dec : EqDecision reply.
Proof. solve_decision. Defined.

Definition errBadType : error := NetError "wrong type".

(** [Resp.Err] *)
Definition Err (r : reply) : option error :=
  match r with RErr e => Some e | _ => None end.

(** [Resp.Int64()] *)
Definition Int64 (r : reply) : Z * option error :=
  match r with
  | RErr e => (0, Some e)
  | RInt n => (n, None)
  | ROther => (0, Some errBadType)
  end.

(** ** Events and the world *)

Inductive chan :=
| CtxDone     (* ctx.Done() *)
| TickerC     (* t.C of the ticker of saveBlocking *)
| TimeAfter.  (* time.After(...) of the wait between two passes *)

Inductive logmsg :=
| LogErr (addr : string) (e : error)       (* log.Printf("%s: %v", addr, err) *)
| LogSaved (addr : string) (elapsed : Z)   (* log.Printf("%s: saved in %v", addr, d) *)
| LogDeadline (d : Z)                      (* log.Print("deadline of %v reached", d) *)
| LogFatal (e : error).                    (* log.Fatal(err) *)

Inductive event :=
| EDial (addr : string) (timeout : Z) (err : option error)
| ECmd (addr : string) (args : list string) (r : reply)
| EClose (addr : string)
| ERecv (c : chan)
| ELog (m : logmsg).

#[global] Instance chan_eq_dec : EqDecision chan.
Proof. solve_decision. Defined.
#[global] Instance logmsg_eq_dec : EqDecision logmsg.
Proof. solve_decision. Defined.
#[global] Instance event_eq_dec : EqDecision event.
Proof. solve_decision. Defined.

(** What the environment answers to one blocking operation. An operation
    reads the fields that concern it: a dial reads [dial_err], a command
    [resp], both read [took], the time until the answer; a [select] reads
    [ctx_first], which of two cases that are ready together is taken. *)
Record answer := Answer {
  took : Z;
  dial_err : option error;
  resp : reply;
  ctx_first : bool
}.

Record World := mkWorld {
  env : nat -> answer;          (* the answers, by operation number *)
  pos : nat;                    (* number of blocking operations so far *)
  now : Z;                      (* the clock, in ns *)
  trace : list (Z * event)      (* what was done and when it was over, oldest first *)
}.

(** The context built by [context.WithTimeout(context.Background(), d)]: its
    Done channel is closed once the clock reaches the deadline. *)
Record Context := mkContext { deadline : Z }.


(** ** The monad: world passing, with [Running] for a computation that has
    not returned when the fuel of its loops is used up *)

Inductive res (A : Type) :=
| Returned (a : A)
| Running.
Arguments Returned {A} a.
Arguments Running {A}.

Definition M (A : Type) : Type := World -> res A * World.

Definition ret {A} (a : A) : M A := fun w => (Returned a, w).

Definition bind {A B} (m : M A) (k : A -> M B) : M B :=
  fun w => match m w with
           | (Returned a, w') => k a w'
           | (Running, w') => (Running, w')
           end.

Definition running {A} : M A := fun w => (Running, w).

Notation "x <- m ;; k" := (bind m (fun x => k))
  (at level 100, m at level 99, right associativity).
Notation "m ;;; k" := (bind m (fun _ => k))
  (at level 100, right associativity).

(** A computation leaves the environment as it is, and moves the oracle
    and the clock forward only. *)
Definition advances {A} (m : M A) : Prop :=
  forall w,
    env (snd (m w)) = env w /\ (pos w <= pos (snd (m w)))%nat /\ now w <= now (snd (m w)).

(** *** Primitives *)

Definition emit (e : event) : M unit :=
  fun w => (Returned tt,
            {| env := env w; pos := pos w; now := now w;
               trace := trace w ++ [(now w, e)] |}).

(** The next answer of the environment to a client that waits [timeout] at
    most: the clock advances by [took], and by no more than [timeout] (what
    the client has then is its own time-out error, an error like those that
    the oracle gives). *)
Definition next (timeout : Z) : M answer :=
  fun w => let a := env w (pos w) in
           (Returned a,
            {| env := env w; pos := S (pos w);
               now := now w + Z.max 0 (Z.min (took a) timeout); trace := trace w |}).

(** [time.Now()] *)
Definition Now : M Z := fun w => (Returned (now w), w).

(** [redis.DialTimeout("tcp", addr, timeout)] *)
Definition DialTimeout (addr : string) (timeout : Z) : M (option error) :=
  a <- next timeout ;;
  emit (EDial addr timeout (dial_err a)) ;;;
  ret (dial_err a).

(** [conn.Cmd(args...)] on the connection to [addr], which was dialled with
    [timeout]: the client of radix.v2 keeps the time-out of the dial as the
    deadline of every read and write on the connection. The few bytes of a
    command are written at once; [took] is the time until the reply. *)
Definition Cmd (addr : string) (timeout : Z) (args : list string) : M reply :=
  a <- next timeout ;;
  emit (ECmd addr args (resp a)) ;;;
  ret (resp a).

(** [conn.Close()] *)
Definition Close (addr : string) : M unit := emit (EClose addr).

(** [log.Printf] and friends *)
Definition Log (m : logmsg) : M unit := emit (ELog m).

(** [context.WithTimeout(context.Background(), d)] *)
Definition WithTimeout (d : Z) : M Context :=
  fun w => (Returned {| deadline := now w + d |}, w).

(** [ctx.Err()]: nil until the deadline has passed *)
Definition ctxErr (ctx : Context) : M (option error) :=
  fun w => (Returned (if deadline ctx <=? now w then Some DeadlineExceeded else None), w).

(** [select { case <-ctx.Done(): ...; default: }]: does not block *)
Definition ctxDone (ctx : Context) : M bool :=
  fun w => (Returned (deadline ctx <=? now w), w).

(** [select { case <-ctx.Done(): ...; case <-c: ... }] where [c] delivers at
    time [due]. ctx.Done() is ready from the deadline on, [c] from [due] on.
    The select returns as soon as one of them is ready, with that case; when
    both are ready at the same time (on entry, or at the same instant
    later) Go chooses at random, here the environment. *)
Definition select (ctx : Context) (c : chan) (due : Z) : M chan :=
  fun w => let a := env w (pos w) in
           let tctx := Z.max (now w) (deadline ctx) in
           let tc := Z.max (now w) due in
           let got := if tctx <? tc then CtxDone
                      else if tc <? tctx then c
                      else if ctx_first a then CtxDone else c in
           let t' := Z.min tctx tc in
           (Returned got,
            {| env := env w; pos := S (pos w); now := t';
               trace := trace w ++ [(t', ERecv got)] |}).

(** [time.NewTicker(d)]: the k-th tick is sent at creation time + k*d. The
    channel of a ticker holds one tick at most, and a tick sent while it
    holds one is dropped: [due] is the time at which the tick that the
    channel holds, or will hold next, is sent. *)
Record Ticker := mkTicker { period : Z; due : Z }.

Definition NewTicker (d : Z) : M Ticker :=
  fun w => (Returned {| period := d; due := now w + d |}, w).

(** The ticker whose tick has been received at time [t1]: the channel is
    empty from then on, and the tick that it holds next is the first one
    sent after [t1] (a tick sent at the very instant of the receipt of an
    older one counts as sent before it, and is dropped). *)
Definition ticked (t : Ticker) (t1 : Z) : Ticker :=
  {| period := period t;
     due := due t + period t * (1 + (t1 - due t) / period t) |}.

(** The state of the ticker after [<-ticker.C], which has just returned. *)
Definition received (t : Ticker) : M Ticker :=
  fun w => (Returned (ticked t (now w)), w).

(** ** The program *)

(** The [for { select ... }] of saveBlocking. *)
Fixpoint poll (fuel : nat) (ctx : Context) (addr : string) (prev : Z) (t : Ticker)
  : M (option error) :=
  match fuel with
  | O => running
  | S fuel' =>
      c <- select ctx TickerC (due t) ;;
      match c with
      | CtxDone => ctxErr ctx
      | _ =>
          t' <- received t ;;      (* t.C has given its tick *)
          r <- Cmd addr (15 * Second) ["LASTSAVE"] ;;
          let (cur, err) := Int64 r in
          match err with
          | Some e => ret (Some e)
          | None =>
              if negb (cur =? prev) then ret None
              else poll fuel' ctx addr prev t'
          end
      end
  end.

Definition saveBlocking (fuel : nat) (ctx : Context) (addr : string) : M (option error) :=
  err <- DialTimeout addr (15 * Second) ;;
  match err with
  | Some e => ret (Some e)
  | None =>
      (* defer conn.Close() *)
      out <- (r <- Cmd addr (15 * Second) ["LASTSAVE"] ;;
              let (prev, err) := Int64 r in
              match err with
              | Some e => ret (Some e)
              | None =>
                  b <- Cmd addr (15 * Second) ["BGSAVE"] ;;
                  match Err b with
                  | Some e => ret (Some e)
                  | None =>
                      t <- NewTicker (10 * Second) ;;
                      poll fuel ctx addr prev t
                  end
              end) ;;
      Close addr ;;;
      ret out
  end.

Definition disablePersistence (addr : string) : M (option error) :=
  err <- DialTimeout addr (5 * Second) ;;
  match err with
  | Some e => ret (Some e)
  | None =>
      (* defer conn.Close() *)
      r <- Cmd addr (5 * Second) ["CONFIG"; "SET"; "SAVE"; ""] ;;
      Close addr ;;;
      ret (Err r)
  end.

(** The first loop of [do]: [for _, addr := range addrs { disablePersistence }]. *)
Fixpoint disableAll (addrs : list string) : M unit :=
  match addrs with
  | [] => ret tt
  | addr :: rest =>
      err <- disablePersistence addr ;;
      match err with
      | Some e => Log (LogErr addr e)
      | None => ret tt
      end ;;;
      disableAll rest
  end.

(** The inner loop of [do], one pass over the hosts. [Some e]: the function
    returned [e] from inside the loop; [None]: the loop ran to its end. *)
Fixpoint savePass (fuel : nat) (ctx : Context) (addrs : list string) : M (option error) :=
  match addrs with
  | [] => ret None
  | addr :: rest =>
      begin <- Now ;;
      err <- saveBlocking fuel ctx addr ;;
      match err with
      | Some e => Log (LogErr addr e)
      | None => t <- Now ;; Log (LogSaved addr (t - begin))
      end ;;;
      d <- ctxDone ctx ;;
      if d then ctxErr ctx else savePass fuel ctx rest
  end.

(** The outer [for { ... }] of [do]. *)
Fixpoint passes (fuel : nat) (ctx : Context) (addrs : list string) : M (option error) :=
  match fuel with
  | O => running
  | S fuel' =>
      r <- savePass fuel' ctx addrs ;;
      match r with
      | Some e => ret (Some e)
      | None =>
          t <- Now ;;
          c <- select ctx TimeAfter (t + 10 * Second) ;;
          match c with
          | CtxDone => ctxErr ctx
          | _ => passes fuel' ctx addrs
          end
      end
  end.

Definition do (fuel : nat) (ctx : Context) (addrs : list string) : M (option error) :=
  if (length addrs =? 0)%nat then ret (Some (ErrorString "empty addresses"))
  else
    disableAll addrs ;;;
    passes fuel ctx addrs.

(** ** Start-up: the flags, the address file, the shuffle ([main]) *)

Record Args := mkArgs {
  Deadline : Z;          (* -deadline, a time.Duration *)
  Addresses : string     (* -file *)
}.

(** The flags as declared, before the command line is read:
    [Deadline: time.Hour]. *)
Definition defaultArgs : Args := {| Deadline := Hour; Addresses := "" |}.

(** [if args.Deadline < time.Minute { args.Deadline = time.Minute }] *)
Definition floorDeadline (args : Args) : Args :=
  if Deadline args <? Minute
  then {| Deadline := Minute; Addresses := Addresses args |}
  else args.

(** *** The address file *)

(** The file system as [readLines] sees it: [os.Open] fails, or the scanner
    delivers the lines of [content] and ends with [scanErr]. [content] is
    what the scanner has turned into lines and [scanErr] its Err(): for the
    bytes of a file they are given by [Scanner] below, which stops at a line
    that does not fit the buffer. *)
Inductive file :=
| NoFile (e : error)
| File (content : string) (scanErr : option error).

Definition LF : ascii := ascii_of_nat 10.
Definition CR : ascii := ascii_of_nat 13.

(** The white space of [bytes.TrimSpace] is that of unicode.IsSpace, read
    in UTF-8. In one byte: '\t', '\n', '\v', '\f', '\r' and ' '. *)
Definition isSpace (c : ascii) : bool :=
  let n := nat_of_ascii c in
  ((9 <=? n) && (n <=? 13) || (n =? 32))%nat.

(** In two bytes: U+0085 (C2 85) and U+00A0 (C2 A0). *)
Definition isSpace2 (c d : ascii) : bool :=
  let c := nat_of_ascii c in
  let d := nat_of_ascii d in
  ((c =? 194) && ((d =? 133) || (d =? 160)))%nat.

(** In three bytes: U+1680 (E1 9A 80), U+2000 to U+200A (E2 80 80 to
    E2 80 8A), U+2028, U+2029 and U+202F (E2 80 A8, A9, AF), U+205F
    (E2 81 9F) and U+3000 (E3 80 80). *)
Definition isSpace3 (c d e : ascii) : bool :=
  let c := nat_of_ascii c in
  let d := nat_of_ascii d in
  let e := nat_of_ascii e in
  ((c =? 225) && (d =? 154) && (e =? 128)
   || (c =? 226) && (d =? 128)
      && ((128 <=? e) && (e <=? 138) || (e =? 168) || (e =? 169) || (e =? 175))
   || (c =? 226) && (d =? 129) && (e =? 159)
   || (c =? 227) && (d =? 128) && (e =? 128))%nat.

(** The number of bytes of the white-space character with which [s] starts
    (utf8.DecodeRune and unicode.IsSpace); 0 when it starts with none. *)
Definition spaceWidth (s : string) : nat :=
  match s with
  | String c rest =>
      if isSpace c then 1%nat
      else match rest with
           | String d rest2 =>
               if isSpace2 c d then 2%nat
               else match rest2 with
                    | String e _ => if isSpace3 c d e then 3%nat else 0%nat
                    | EmptyString => 0%nat
                    end
           | EmptyString => 0%nat
           end
  | EmptyString => 0%nat
  end.

(** The same for the character with which a string ends
    (utf8.DecodeLastRune); the string is given reversed, last byte first. *)
Definition spaceWidthRev (r : string) : nat :=
  match r with
  | String e rest =>
      if isSpace e then 1%nat
      else match rest with
           | String d rest2 =>
               if isSpace2 d e then 2%nat
               else match rest2 with
                    | String c _ => if isSpace3 c d e then 3%nat else 0%nat
                    | EmptyString => 0%nat
                    end
           | EmptyString => 0%nat
           end
  | EmptyString => 0%nat
  end.

Fixpoint skip (n : nat) (s : string) : string :=
  match n, s with
  | S n', String _ rest => skip n' rest
  | _, _ => s
  end.

(** The loop of bytes.TrimLeftFunc and bytes.TrimRightFunc: white-space
    characters are dropped one by one, until the string starts with none.
    [fuel] bounds the iterations; the length of the string is enough. *)
Fixpoint trimN (width : string -> nat) (fuel : nat) (s : string) : string :=
  match fuel with
  | O => s
  | S fuel' =>
      match width s with
      | O => s
      | n => trimN width fuel' (skip n s)
      end
  end.

Definition trimLeft (s : string) : string := trimN spaceWidth (String.length s) s.

(** On a reversed string: what is dropped is the white space of its end. *)
Definition trimRight (r : string) : string := trimN spaceWidthRev (String.length r) r.

Fixpoint revString (s acc : string) : string :=
  match s with
  | String c rest => revString rest (String c acc)
  | EmptyString => acc
  end.

(** [bytes.TrimSpace] *)
Definition TrimSpace (s : string) : string :=
  revString (trimRight (revString (trimLeft s) "")) "".

(** [dropCR] of bufio: one trailing '\r' is dropped. [line] is reversed. *)
Definition dropCR (line : string) : string :=
  match line with
  | String c rest => if Ascii.eqb c CR then rest else line
  | EmptyString => line
  end.

(** [bufio.ScanLines] applied until the end of the data: the lines without
    their end-of-line marker; a last line without newline counts when it is
    not empty. [line] holds the bytes of the current line, last first. *)
Fixpoint scanLines (data : string) (line : string) : list string :=
  match data with
  | String c rest =>
      if Ascii.eqb c LF then revString (dropCR line) "" :: scanLines rest ""
      else scanLines rest (String c line)
  | EmptyString =>
      match line with
      | EmptyString => []
      | _ => [revString (dropCR line) ""]
      end
  end.

Definition readLines (fs : string -> file) (name : string) : list string * option error :=
  match fs name with
  | NoFile e => ([], Some e)
  | File content scanErr => (map TrimSpace (scanLines content ""), scanErr)
  end.

(** *** The buffer of the scanner

    A bufio.Scanner holds a line in a buffer of at most 64 KiB: when 65536
    bytes of a line have come without its newline, Scan gives up and Err()
    is ErrTooLong; the lines before that one have been delivered. *)
Definition MaxScanTokenSize : Z := 65536.

Definition ErrTooLong : error := FileError "bufio.Scanner: token too long".

(** The part of [data] that the scanner turns into lines, and whether it
    has stopped at a line too long. [line] holds the bytes of the current
    line, last first, and [n] is their number. *)
Fixpoint scanned (data : string) (line : string) (n : Z) : string * bool :=
  match data with
  | String c rest =>
      if Ascii.eqb c LF then
        let (more, long) := scanned rest "" 0 in
        (revString line (String c more), long)
      else if MaxScanTokenSize <=? n + 1 then ("", true)
      else scanned rest (String c line) (n + 1)
  | EmptyString => (revString line "", false)
  end.

(** A file of bytes [data], after which the reader ends with [readErr]
    ([None] at the end of the file), as the scanner of readLines sees it. *)
Definition Scanner (data : string) (readErr : option error) : file :=
  let (content, long) := scanned data "" 0 in
  File content (if long then Some ErrTooLong else readErr).

(** *** The shuffle *)

(** [rand.Intn(n)] at the k-th call on a source whose raw draws are [rnd]:
    a number of [0, n). *)
Definition Intn (rnd : nat -> nat) (k : nat) (n : nat) : nat := (rnd k mod n)%nat.

(** [addrs[i], addrs[j] = addrs[j], addrs[i]]; [None] is the panic of an
    index out of range. *)
Definition swap (addrs : list string) (i j : nat) : option (list string) :=
  match addrs !! j, addrs !! i with
  | Some y, Some x => Some (<[j := x]> (<[i := y]> addrs))
  | _, _ => None
  end.

(** [for i := range addrs { j := rand.Intn(i + 1); swap }], [n] iterations
    from index [i] on. *)
Fixpoint shuffleFrom (rnd : nat -> nat) (n i : nat) (addrs : list string)
  : option (list string) :=
  match n with
  | O => Some addrs
  | S n' =>
      let j := Intn rnd i (i + 1) in
      match swap addrs i j with
      | Some addrs' => shuffleFrom rnd n' (S i) addrs'
      | None => None
      end
  end.

Definition shuffle (rnd : nat -> nat) (addrs : list string) : option (list string) :=
  shuffleFrom rnd (length addrs) 0 addrs.

(** *** main *)

Inductive exit :=
| ExitOK       (* main returns *)
| ExitFatal    (* log.Fatal: exit status 1 *)
| ExitPanic.   (* a run-time panic *)

Definition main (fuel : nat) (flags : Args) (fs : string -> file) (rnd : nat -> nat)
  : M exit :=
  let args := floorDeadline flags in
  let (addrs, err) := readLines fs (Addresses args) in
  match err with
  | Some e => Log (LogFatal e) ;;; ret ExitFatal
  | None =>
      match shuffle rnd addrs with
      | None => ret ExitPanic
      | Some addrs =>
          ctx <- WithTimeout (Deadline args) ;;
          err <- do fuel ctx addrs ;;
          match err with
          | Some e =>
              if decide (e = DeadlineExceeded)
              then Log (LogDeadline (Deadline args)) ;;; ret ExitOK
              else Log (LogFatal e) ;;; ret ExitFatal
          | None => ret ExitOK
          end
      end
  end.

(** ** Concrete environments *)

(** The answer to a dial, to a command, and to a [select] that finds its
    two cases ready together: it takes the tick or the timer ([fired]), or
    ctx.Done() ([cancelled]). *)
Definition dialed (t : Z) (e : option error) : answer :=
  {| took := t; dial_err := e; resp := ROther; ctx_first := false |}.
Definition replied (t : Z) (r : reply) : answer :=
  {| took := t; dial_err := None; resp := r; ctx_first := false |}.
Definition fired (t : Z) : answer :=
  {| took := t; dial_err := None; resp := ROther; ctx_first := false |}.
Definition cancelled (t : Z) : answer :=
  {| took := t; dial_err := None; resp := ROther; ctx_first := true |}.

(** The environment that gives the answers of [l] in turn, and then
    prefers ctx.Done(). *)
Definition script (l : list answer) : nat -> answer :=
  fun i => nth i l (cancelled 0).

Definition start (l : list answer) : World :=
  {| env := script l; pos := 0; now := 0; trace := [] |}.

(** *** Two runs over real-looking hosts *)

Definition hostA : string := "10.0.0.1:6379".
Definition hostB : string := "10.0.0.2:6379".
Definition ms : Z := 1000000.

(** The context of a run started at time 0 with the floor of one minute. *)
Definition ctx60 : Context := {| deadline := Minute |}.

Definition refused : option error := Some (NetError "connection refused").
Definition busy : reply := RErr (NetError "ERR Background save already in progress").

(** Disabling: A accepts, B refuses the connection. First pass: A has saved
    at the first poll, B at the second. Second pass: A refuses the
    connection, B refuses the trigger. Third pass: the deadline passes while
    saveBlocking waits for the first tick on A. *)
Definition typicalRun : list answer :=
  [ dialed ms None; replied ms ROther;
    dialed ms refused;
    dialed ms None; replied ms (RInt 100); replied ms ROther;
    fired 0; replied ms (RInt 101);
    dialed ms None; replied ms (RInt 200); replied ms ROther;
    fired 0; replied ms (RInt 200);
    fired 0; replied ms (RInt 205);
    fired 0;
    dialed ms refused;
    dialed ms None; replied ms (RInt 205); replied ms busy;
    fired 0;
    dialed ms None; replied ms (RInt 101); replied ms ROther;
    cancelled 0 ].

Definition typicalTrace : list (Z * event) :=
  trace (snd (do 6 ctx60 [hostA; hostB] (start typicalRun))).

Definition firstTrigger : Z * event := (6 * ms, ECmd hostA ["BGSAVE"] ROther).

(** One host whose save has ended when the first tick comes. *)
Definition quickSave : list answer :=
  [ dialed ms None; replied ms (RInt 100); replied ms ROther;
    fired 0; replied ms (RInt 101) ].

(** One host whose save never ends; its fifth poll is answered after 14 s,
    which the 15 s read timeout of the connection allows. *)
Definition slowRead : list answer :=
  [ dialed ms None; replied ms ROther;
    dialed ms None; replied ms (RInt 100); replied ms ROther;
    fired 0; replied ms (RInt 100);
    fired 0; replied ms (RInt 100);
    fired 0; replied ms (RInt 100);
    fired 0; replied ms (RInt 100);
    fired 0; replied (14 * Second) (RInt 100);
    cancelled 0 ].

(** An address file with two hosts and, between them, an empty line and a
    line of two spaces. *)
Definition nl : string := String LF "".

Definition hostsFile : string :=
  (hostA ++ nl ++ nl ++ "  " ++ nl ++ hostB ++ nl)%string.

Definition blankFile : string := (nl ++ "  " ++ nl)%string.

Definition disk (name : string) : file :=
  if String.eqb name "hosts" then File hostsFile None
  else if String.eqb name "blank" then File blankFile None
  else if String.eqb name "empty" then File "" None
  else NoFile (FileError "no such file or directory").

(** *** More runs *)

(** One host whose save has ended at the second poll. *)
Definition twoPolls : list answer :=
  [ dialed ms None; replied ms (RInt 100); replied ms ROther;
    fired 0; replied ms (RInt 100);
    fired 0; replied ms (RInt 102) ].

(** Two hosts that let the dial of disablePersistence run into its time-out
    of 5 s, under a context of 8 s; the first then accepts the connection of
    saveBlocking. *)
Definition timedOut : option error := Some (NetError "i/o timeout").

Definition slowDisable : list answer :=
  [ dialed (5 * Second) timedOut; dialed (5 * Second) timedOut;
    dialed ms None; replied ms (RInt 7); replied ms ROther ].

Definition ctx8 : Context := {| deadline := 8 * Second |}.

(** One host whose save never ends and that answers three polls after 14 s
    each, then one at once. *)
Definition laggingReads : list answer :=
  [ dialed ms None; replied ms ROther;
    dialed ms None; replied ms (RInt 100); replied ms ROther;
    fired 0; replied (14 * Second) (RInt 100);
    fired 0; replied (14 * Second) (RInt 100);
    fired 0; replied (14 * Second) (RInt 100);
    fired 0; replied ms (RInt 100) ].

(** ** Reading traces *)

(** The events a computation added: those of [w'] that [w] did not have. *)
Definition since (w w' : World) : list (Z * event) :=
  drop (length (trace w)) (trace w').

(** [conn.Cmd(name, ...)] *)
Definition isCmd (name : string) (e : event) : bool :=
  match e with
  | ECmd _ (c :: _) _ => String.eqb c name
  | _ => false
  end.

Definition isTrigger (e : Z * event) : bool := isCmd "BGSAVE" (snd e).
Definition isRead (e : Z * event) : bool := isCmd "LASTSAVE" (snd e).

(** The value of the last-save marker that an event delivered, if any. *)
Definition marker (e : Z * event) : option Z :=
  match snd e with
  | ECmd _ _ (RInt n) => if isRead e then Some n else None
  | _ => None
  end.

Definition markers (tr : list (Z * event)) : list Z := omap marker tr.

(** The events before the first save trigger, and those after it. *)
Fixpoint beforeTrigger (tr : list (Z * event)) : list (Z * event) :=
  match tr with
  | [] => []
  | e :: rest => if isTrigger e then [] else e :: beforeTrigger rest
  end.

Fixpoint afterTrigger (tr : list (Z * event)) : list (Z * event) :=
  match tr with
  | [] => []
  | e :: rest => if isTrigger e then rest else afterTrigger rest
  end.

(** The time at which the save trigger was answered. *)
Definition triggerTime (tr : list (Z * event)) : option Z :=
  fst <$> head (filter (fun e => isTrigger e = true) tr).

(** The lines of the log, and the receipts from a channel. *)
Definition isLog (e : Z * event) : bool :=
  match snd e with ELog _ => true | _ => false end.

Definition isRecv (e : Z * event) : bool :=
  match snd e with ERecv _ => true | _ => false end.

(** The hosts dialled with the time-out [timeout], in the order of the dials. *)
Definition dialOf (timeout : Z) (e : Z * event) : option string :=
  match snd e with
  | EDial addr tmo _ => if tmo =? timeout then Some addr else None
  | _ => None
  end.

Definition dialsOf (timeout : Z) (tr : list (Z * event)) : list string :=
  omap (dialOf timeout) tr.

(** A line of white space only (or empty). *)
Fixpoint blank (s : string) : bool :=
  match s with
  | String c rest => isSpace c && blank rest
  | EmptyString => true
  end.

(** *** Reading address files *)

(** The text of a file that holds the lines [ls], each ended by a newline. *)
Fixpoint unlines (ls : list string) : string :=
  match ls with
  | [] => EmptyString
  | l :: rest => (l ++ nl ++ unlines rest)%string
  end.

(** [s] holds a newline. *)
Fixpoint hasLF (s : string) : bool :=
  match s with
  | String c rest => Ascii.eqb c LF || hasLF rest
  | EmptyString => false
  end.

(** The first byte of [s], and its last byte, is white space. *)
Definition startsWithSpace (s : string) : bool :=
  match s with
  | String c _ => isSpace c
  | EmptyString => false
  end.

Definition endsWithSpace (s : string) : bool := startsWithSpace (revString s "").

(** A file written with CRLF line ends, whose last line starts with a
    no-break space (U+00A0) and has no line end; and a file of two hosts, one
    per line. *)
Definition nbsp : string := String (ascii_of_nat 194) (String (ascii_of_nat 160) "").

Definition dosFile : string :=
  (hostA ++ String CR nl ++ nbsp ++ hostB)%string.

Definition dosDisk (name : string) : file := Scanner dosFile None.

Definition hostsDisk (name : string) : file := Scanner (unlines [hostA; hostB]) None.

Definition plainDisk (name : string) : file := File (unlines [hostA; hostB]) None.

(** The time of the last event of [new], or [t0] when there is none. *)
Definition endTime (t0 : Z) (new : list (Z * event)) : Z :=
  default t0 (last (new.*1)).

(** *** Connections in flight *)

(** [conn.Close()] on the connection to [addr]. *)
Fixpoint closeConn (addr : string) (open : list string) : list string :=
  match open with
  | [] => []
  | b :: rest => if String.eqb addr b then rest else b :: closeConn addr rest
  end.

(** The hosts with an open connection after one more event. *)
Definition connStep (open : list string) (e : Z * event) : list string :=
  match snd e with
  | EDial addr _ None => addr :: open
  | EClose addr => closeConn addr open
  | _ => open
  end.

Definition conns (open : list string) (tr : list (Z * event)) : list string :=
  fold_left connStep tr open.

Definition isDial (e : Z * event) : bool :=
  match snd e with EDial _ _ _ => true | _ => false end.

(** Along [tr], started with the connections [open]: a save trigger goes to
    the one host that has a connection, a dial is made only when no
    connection is open, and so there is never a second connection. *)
Fixpoint sequential (open : list string) (tr : list (Z * event)) : Prop :=
  match tr with
  | [] => True
  | e :: rest =>
      (isTrigger e = true -> exists b r, snd e = ECmd b ["BGSAVE"] r /\ open = [b]) /\
      (isDial e = true -> open = []) /\
      (length (connStep open e) <= 1)%nat /\
      sequential (connStep open e) rest
  end.

(** ** The runs of saveBlocking, as a relation on traces

    [polled ctx addr prev t0 t new r]: the polling loop entered at time [t0]
    with ticker [t] adds the events [new] and ends as [r]. *)
Inductive polled (ctx : Context) (addr : string) (prev : Z)
  : Z -> Ticker -> list (Z * event) -> res (option error) -> Prop :=
| polled_running t0 t :
    polled ctx addr prev t0 t [] Running
| polled_done t0 t t1 :
    t0 <= t1 -> deadline ctx <= t1 ->
    t1 <= Z.max t0 (deadline ctx) -> t1 <= Z.max t0 (due t) ->
    polled ctx addr prev t0 t [(t1, ERecv CtxDone)] (Returned (Some DeadlineExceeded))
| polled_failed t0 t t1 t2 rp e :
    t0 <= t1 -> due t <= t1 -> t1 <= t2 -> snd (Int64 rp) = Some e ->
    t1 <= Z.max t0 (due t) -> t1 <= Z.max t0 (deadline ctx) -> t2 <= t1 + 15 * Second ->
    polled ctx addr prev t0 t
      [(t1, ERecv TickerC); (t2, ECmd addr ["LASTSAVE"] rp)] (Returned (Some e))
| polled_changed t0 t t1 t2 cur :
    t0 <= t1 -> due t <= t1 -> t1 <= t2 -> cur <> prev ->
    t1 <= Z.max t0 (due t) -> t1 <= Z.max t0 (deadline ctx) -> t2 <= t1 + 15 * Second ->
    polled ctx addr prev t0 t
      [(t1, ERecv TickerC); (t2, ECmd addr ["LASTSAVE"] (RInt cur))] (Returned None)
| polled_same t0 t t1 t2 new r :
    t0 <= t1 -> due t <= t1 -> t1 <= t2 ->
    polled ctx addr prev t2 (ticked t t1) new r ->
    t1 <= Z.max t0 (due t) -> t1 <= Z.max t0 (deadline ctx) -> t2 <= t1 + 15 * Second ->
    polled ctx addr prev t0 t
      ((t1, ERecv TickerC) :: (t2, ECmd addr ["LASTSAVE"] (RInt prev)) :: new) r.

(** [attempt ctx addr t0 new r]: a call of saveBlocking at time [t0] adds the
    events [new] and ends as [r]. *)
Inductive attempt (ctx : Context) (addr : string)
  : Z -> list (Z * event) -> res (option error) -> Prop :=
| attempt_no_conn t0 t1 e :
    t0 <= t1 ->
    t1 <= t0 + 15 * Second ->
    attempt ctx addr t0 [(t1, EDial addr (15 * Second) (Some e))] (Returned (Some e))
| attempt_no_read t0 t1 t2 rp e :
    t0 <= t1 -> t1 <= t2 -> snd (Int64 rp) = Some e ->
    t1 <= t0 + 15 * Second -> t2 <= t1 + 15 * Second ->
    attempt ctx addr t0
      [(t1, EDial addr (15 * Second) None); (t2, ECmd addr ["LASTSAVE"] rp);
       (t2, EClose addr)]
      (Returned (Some e))
| attempt_no_save t0 t1 t2 t3 prev rb e :
    t0 <= t1 -> t1 <= t2 -> t2 <= t3 -> Err rb = Some e ->
    t1 <= t0 + 15 * Second -> t2 <= t1 + 15 * Second -> t3 <= t2 + 15 * Second ->
    attempt ctx addr t0
      [(t1, EDial addr (15 * Second) None); (t2, ECmd addr ["LASTSAVE"] (RInt prev));
       (t3, ECmd addr ["BGSAVE"] rb); (t3, EClose addr)]
      (Returned (Some e))
| attempt_running t0 t1 t2 t3 prev rb new :
    t0 <= t1 -> t1 <= t2 -> t2 <= t3 -> Err rb = None ->
    polled ctx addr prev t3 {| period := 10 * Second; due := t3 + 10 * Second |} new Running ->
    t1 <= t0 + 15 * Second -> t2 <= t1 + 15 * Second -> t3 <= t2 + 15 * Second ->
    attempt ctx addr t0
      ((t1, EDial addr (15 * Second) None) :: (t2, ECmd addr ["LASTSAVE"] (RInt prev)) ::
       (t3, ECmd addr ["BGSAVE"] rb) :: new)
      Running
| attempt_polled t0 t1 t2 t3 prev rb new r :
    t0 <= t1 -> t1 <= t2 -> t2 <= t3 -> Err rb = None ->
    polled ctx addr prev t3 {| period := 10 * Second; due := t3 + 10 * Second |} new
      (Returned r) ->
    t1 <= t0 + 15 * Second -> t2 <= t1 + 15 * Second -> t3 <= t2 + 15 * Second ->
    attempt ctx addr t0
      ((t1, EDial addr (15 * Second) None) :: (t2, ECmd addr ["LASTSAVE"] (RInt prev)) ::
       (t3, ECmd addr ["BGSAVE"] rb) :: new ++ [(endTime t3 new, EClose addr)])
      (Returned r).

(** ** The runs of [do], as relations on traces *)

(** [toggled addr t0 new err]: a call of disablePersistence at time [t0]. *)
Inductive toggled (addr : string) : Z -> list (Z * event) -> option error -> Prop :=
| toggled_no_conn t0 t1 e :
    t0 <= t1 ->
    t1 <= t0 + 5 * Second ->
    toggled addr t0 [(t1, EDial addr (5 * Second) (Some e))] (Some e)
| toggled_cmd t0 t1 t2 r :
    t0 <= t1 -> t1 <= t2 ->
    t1 <= t0 + 5 * Second -> t2 <= t1 + 5 * Second ->
    toggled addr t0
      [(t1, EDial addr (5 * Second) None);
       (t2, ECmd addr ["CONFIG"; "SET"; "SAVE"; ""] r); (t2, EClose addr)]
      (Err r).

(** What [do] logs after disablePersistence returned [err] at time [t]. *)
Definition toggleLog (addr : string) (t : Z) (err : option error) : list (Z * event) :=
  match err with
  | Some e => [(t, ELog (LogErr addr e))]
  | None => []
  end.

(** The first loop of [do], entered at time [t0]. *)
Inductive disabled : Z -> list string -> list (Z * event) -> Prop :=
| disabled_nil t0 :
    disabled t0 [] []
| disabled_cons t0 addr rest new err new' :
    toggled addr t0 new err ->
    disabled (endTime t0 new) rest new' ->
    disabled t0 (addr :: rest) (new ++ toggleLog addr (endTime t0 new) err ++ new').

(** What [do] logs after saveBlocking, called at [begin], returned [err] at [t]. *)
Definition saveLog (addr : string) (begin t : Z) (err : option error) : Z * event :=
  (t, ELog match err with
           | Some e => LogErr addr e
           | None => LogSaved addr (t - begin)
           end).

(** One pass over [addrs], entered at time [t0]. *)
Inductive passed (ctx : Context)
  : Z -> list string -> list (Z * event) -> res (option error) -> Prop :=
| passed_nil t0 :
    passed ctx t0 [] [] (Returned None)
| passed_running t0 addr rest new :
    attempt ctx addr t0 new Running ->
    passed ctx t0 (addr :: rest) new Running
| passed_abort t0 addr rest new err :
    attempt ctx addr t0 new (Returned err) ->
    deadline ctx <= endTime t0 new ->
    passed ctx t0 (addr :: rest)
      (new ++ [saveLog addr t0 (endTime t0 new) err])
      (Returned (Some DeadlineExceeded))
| passed_next t0 addr rest new err new' r :
    attempt ctx addr t0 new (Returned err) ->
    endTime t0 new < deadline ctx ->
    passed ctx (endTime t0 new) rest new' r ->
    passed ctx t0 (addr :: rest)
      (new ++ saveLog addr t0 (endTime t0 new) err :: new') r.

(** The outer loop of [do], entered at time [t0]. *)
Inductive saving (ctx : Context) (addrs : list string)
  : Z -> list (Z * event) -> res (option error) -> Prop :=
| saving_running t0 :
    saving ctx addrs t0 [] Running
| saving_pass_running t0 new :
    passed ctx t0 addrs new Running ->
    saving ctx addrs t0 new Running
| saving_pass_returned t0 new e :
    passed ctx t0 addrs new (Returned (Some e)) ->
    saving ctx addrs t0 new (Returned (Some e))
| saving_deadline t0 new t1 :
    passed ctx t0 addrs new (Returned None) ->
    endTime t0 new <= t1 -> deadline ctx <= t1 ->
    t1 <= Z.max (endTime t0 new) (deadline ctx) -> t1 <= endTime t0 new + 10 * Second ->
    saving ctx addrs t0 (new ++ [(t1, ERecv CtxDone)]) (Returned (Some DeadlineExceeded))
| saving_again t0 new t1 new' r :
    passed ctx t0 addrs new (Returned None) ->
    endTime t0 new + 10 * Second <= t1 ->
    saving ctx addrs t1 new' r ->
    t1 <= endTime t0 new + 10 * Second -> t1 <= Z.max (endTime t0 new) (deadline ctx) ->
    saving ctx addrs t0 (new ++ (t1, ERecv TimeAfter) :: new') r.

(** ** What bounds a step

    The latest time at which an event can be over when the event before it
    was over at [t0]: the receipt from a channel ends a wait, which the
    deadline ends at the latest (a wait entered after the deadline ends at
    once); a dial and a command end within the time-out of the client,
    whatever the deadline; the other steps take no time. *)
Definition latest (ctx : Context) (t0 : Z) (e : Z * event) : Z :=
  match snd e with
  | ERecv _ => Z.max t0 (deadline ctx)
  | EDial _ timeout _ => t0 + timeout
  | ECmd _ _ _ => t0 + (if isCmd "CONFIG" (snd e) then 5 * Second else 15 * Second)
  | _ => t0
  end.

Fixpoint timely (ctx : Context) (t0 : Z) (tr : list (Z * event)) : Prop :=
  match tr with
  | [] => True
  | e :: rest => fst e <= latest ctx t0 e /\ timely ctx (fst e) rest
  end.

(** Between two cases of a [select] that are ready together Go chooses at
    random: ctx.Done() is not passed over for ever. *)
Definition fair (env : nat -> answer) : Prop :=
  exists N, forall i, (N <= i)%nat -> ctx_first (env i) = true.

(** The polls that a call of saveBlocking, entered in the world [w], can
    still make, and hence a bound on the iterations of its loop: one for
    each tick that is due before the deadline, and one for each time that
    the environment prefers the tick to ctx.Done(), which it does not from
    the answer [N] on. *)
Definition enough (ctx : Context) (N : nat) (w : World) : nat :=
  S (Z.to_nat (deadline ctx - now w) + (N - pos w)).

(** ** Counting events *)

Definition isClose (e : Z * event) : bool :=
  match snd e with EClose _ => true | _ => false end.

(** A dial that gave a connection. *)
Definition isOpen (e : Z * event) : bool :=
  match snd e with EDial _ _ None => true | _ => false end.

Definition count (p : Z * event -> bool) (tr : list (Z * event)) : nat :=
  length (filter (fun e => p e = true) tr).

(** The times of a trace do not go back: from [t0] on they only grow. *)
Fixpoint increasing (t0 : Z) (tr : list (Z * event)) : Prop :=
  match tr with
  | [] => True
  | e :: rest => t0 <= fst e /\ increasing (fst e) rest
  end.

(** The receipt from the timer of the pause between two passes. *)
Definition isPause (e : Z * event) : bool :=
  match snd e with ERecv TimeAfter => true | _ => false end.

(** What a call that dials [addr] has done with its connection: returned,
    it has opened none and closed none, or opened one and closed it as its
    last step; still running, it has closed nothing. *)
Definition released {A} (addr : string) (r : res A) (new : list (Z * event)) : Prop :=
  match r with
  | Returned _ =>
      (count isOpen new = 0%nat /\ count isClose new = 0%nat) \/
      (count isOpen new = 1%nat /\
       exists body t, new = body ++ [(t, EClose addr)] /\ count isClose body = 0%nat)
  | Running => (count isOpen new <= 1)%nat /\ count isClose new = 0%nat
  end.

(** * Proofs *)

Arguments Second : simpl never.
Arguments Minute : simpl never.
Arguments Err : simpl never.

(** ** Traces *)

Lemma since_app {w w' new} : trace w' = trace w ++ new -> since w w' = new.
Proof. intros E. unfold since. rewrite E. apply drop_app_length. Qed.

Lemma since_refl w : since w w = [].
Proof. apply since_app. by rewrite app_nil_r. Qed.

Lemma endTime_nil t0 : endTime t0 [] = t0.
Proof. reflexivity. Qed.

Lemma endTime_snoc t0 new t e : endTime t0 (new ++ [(t, e)]) = t.
Proof. unfold endTime. rewrite fmap_app. cbn. by rewrite last_snoc. Qed.

Lemma endTime_cons t0 x new : endTime t0 (x :: new) = endTime (fst x) new.
Proof.
  unfold endTime. destruct new as [|y new]; [done|].
  rewrite !fmap_cons, last_cons_cons.
  destruct (last (y.1 :: new.*1)) eqn:H; [done|]. by apply last_None in H.
Qed.

Arguments endTime : simpl never.

Lemma deadline_reached t d : (d <=? Z.max t d) = true.
Proof. apply Z.leb_le. lia. Qed.

Lemma Second_pos : 0 < Second.
Proof. reflexivity. Qed.

(** Linear arithmetic on times, with the durations kept as symbols. *)
Ltac tlia := pose proof Second_pos; lia.

Ltac run_in E :=
  cbn in E; unfold bind, Cmd, DialTimeout, Close, Log, emit, next, ret,
    running, ctxErr, ctxDone, Now, NewTicker, received in E; cbn in E.

Lemma bind_returned {A B} (m : M A) (k : A -> M B) w b w' :
  bind m k w = (Returned b, w') ->
  exists a w1, m w = (Returned a, w1) /\ k a w1 = (Returned b, w').
Proof.
  unfold bind. destruct (m w) as [[a|] w1]; [|done]. intros E. by exists a, w1.
Qed.

Lemma bind_eq {A B} {m : M A} {k : A -> M B} {w a w1} :
  m w = (Returned a, w1) -> bind m k w = k a w1.
Proof. unfold bind. by intros ->. Qed.

Lemma Cmd_eq addr timeout args w :
  Cmd addr timeout args w
  = (Returned (resp (env w (pos w))),
     {| env := env w; pos := S (pos w);
        now := now w + Z.max 0 (Z.min (took (env w (pos w))) timeout);
        trace := trace w ++ [(now w + Z.max 0 (Z.min (took (env w (pos w))) timeout),
                              ECmd addr args (resp (env w (pos w))))] |}).
Proof. reflexivity. Qed.

(** The tick after the one received at [t1] is sent a period later at
    least, and it is the first one sent after [t1]. *)
Lemma ticked_due t t1 :
  0 <= period t -> due t <= t1 -> due t + period t <= due (ticked t t1).
Proof.
  intros Hp Hd. cbn.
  pose proof (Z_div_nonneg_nonneg (t1 - due t) (period t) ltac:(lia) Hp). nia.
Qed.

Lemma ticked_next t t1 :
  0 < period t -> t1 < due (ticked t t1) <= t1 + period t.
Proof.
  intros Hp. cbn. pose proof (Z.div_mod (t1 - due t) (period t) ltac:(lia)).
  pose proof (Z.mod_pos_bound (t1 - due t) (period t) Hp). nia.
Qed.

Lemma received_eq t w : received t w = (Returned (ticked t (now w)), w).
Proof. reflexivity. Qed.

Arguments select : simpl never.

(** The two ways a [select] ends. *)
Lemma select_cases ctx c due w :
  exists got t1,
    select ctx c due w
    = (Returned got,
       {| env := env w; pos := S (pos w); now := t1;
          trace := trace w ++ [(t1, ERecv got)] |}) /\
    ((got = CtxDone /\ t1 = Z.max (now w) (deadline ctx) /\ t1 <= Z.max (now w) due /\
      (Z.max (now w) due <= t1 -> ctx_first (env w (pos w)) = true)) \/
     (got = c /\ t1 = Z.max (now w) due /\ t1 <= Z.max (now w) (deadline ctx) /\
      (Z.max (now w) (deadline ctx) <= t1 -> ctx_first (env w (pos w)) = false))).
Proof.
  unfold select. cbv zeta.
  destruct (Z.ltb_spec (Z.max (now w) (deadline ctx)) (Z.max (now w) due)) as [H1|H1].
  { eexists _, _. split; [reflexivity|]. left. split_and!; [done|lia..]. }
  destruct (Z.ltb_spec (Z.max (now w) due) (Z.max (now w) (deadline ctx))) as [H2|H2].
  { eexists _, _. split; [reflexivity|]. right. split_and!; [done|lia..]. }
  destruct (ctx_first (env w (pos w))) eqn:Hc.
  - eexists _, _. split; [reflexivity|]. left. split_and!; [done|lia..|done].
  - eexists _, _. split; [reflexivity|]. right. split_and!; [done|lia..|done].
Qed.

(** ** saveBlocking runs as [attempt] says *)

Lemma poll_polled fuel ctx addr prev t w r w' :
  poll fuel ctx addr prev t w = (r, w') ->
  exists new,
    trace w' = trace w ++ new /\ now w' = endTime (now w) new /\
    polled ctx addr prev (now w) t new r.
Proof.
  revert t w r w'. induction fuel as [|fuel IH]; intros t w r w' E.
  - run_in E. simplify_eq. exists []. rewrite app_nil_r. split_and!; [done..|constructor].
  - cbn [poll] in E.
    destruct (select_cases ctx TickerC (due t) w) as (got & t1 & Hsel & Hcase).
    rewrite (bind_eq Hsel) in E.
    destruct Hcase as [(-> & Ht1 & Hle & _)|(-> & Ht1 & Hle & _)].
    + unfold ctxErr in E. cbn in E.
      destruct (Z.leb_spec (deadline ctx) t1); [|lia]. simplify_eq.
      eexists. split_and!; [done..|]. constructor; lia.
    + run_in E.
      destruct (resp (env w (S (pos w)))) as [e|cur|] eqn:Hr; cbn in E.
      * simplify_eq. eexists. cbn. rewrite <- app_assoc. split_and!; [done..|].
        eapply polled_failed; first [tlia | done].
      * destruct (Z.eqb_spec cur prev) as [->|Hne]; cbn in E.
        -- apply IH in E as (new & Ht & Hn & Hp). cbn in Ht, Hn, Hp.
           eexists. split_and!.
           ++ rewrite Ht, <- !app_assoc. cbn. reflexivity.
           ++ by rewrite Hn, !endTime_cons.
           ++ apply polled_same; first [tlia | done].
        -- simplify_eq. eexists. cbn. rewrite <- app_assoc. split_and!; [done..|].
           apply polled_changed; first [tlia | done].
      * simplify_eq. eexists. cbn. rewrite <- app_assoc. split_and!; [done..|].
        eapply polled_failed; first [tlia | done].
Qed.

Lemma saveBlocking_attempt fuel ctx addr w r w' :
  saveBlocking fuel ctx addr w = (r, w') ->
  exists new,
    trace w' = trace w ++ new /\ now w' = endTime (now w) new /\
    attempt ctx addr (now w) new r.
Proof.
  intros E. run_in E.
  destruct (dial_err (env w (pos w))) as [e|] eqn:Hdial; cbn in E.
  { simplify_eq. eexists. split_and!; [done..|]. constructor; tlia. }
  destruct (resp (env w (S (pos w)))) as [e|prev|] eqn:Hread; cbn in E.
  1,3: simplify_eq; eexists; cbn; rewrite <- !app_assoc; (split_and!; [done..|]);
       eapply attempt_no_read; first [tlia | done].
  destruct (Err (resp (env w (S (S (pos w)))))) as [e|] eqn:Htrig; cbn in E.
  { simplify_eq. eexists. cbn. rewrite <- !app_assoc. split_and!; [done..|].
    eapply attempt_no_save; first [tlia | done]. }
  match type of E with
  | context [poll ?f ?c ?a ?p ?t ?w1] =>
      destruct (poll f c a p t w1) as [[pr|] wp] eqn:Ep; cbn in E
  end; apply poll_polled in Ep as (new & Ht & Hn & Hp); cbn in Ht, Hn, Hp; simplify_eq.
  - eexists. cbn. rewrite Ht, Hn, <- !app_assoc. cbn. split_and!; [done| |].
    + by rewrite !endTime_cons, endTime_snoc.
    + apply attempt_polled; first [tlia | done].
  - eexists. rewrite Ht, <- !app_assoc. cbn. split_and!; [done| |].
    + by rewrite Hn, !endTime_cons.
    + apply attempt_running; first [tlia | done].
Qed.

(** ** More fuel changes nothing once a call has returned *)

Lemma poll_fuel_mono fuel fuel' ctx addr prev t w r w' :
  (fuel <= fuel')%nat ->
  poll fuel ctx addr prev t w = (Returned r, w') ->
  poll fuel' ctx addr prev t w = (Returned r, w').
Proof.
  revert fuel' t w. induction fuel as [|fuel IH]; intros fuel' t w Hle E; [done|].
  destruct fuel' as [|fuel']; [lia|]. cbn [poll] in *.
  apply bind_returned in E as (c & w1 & Hsel & E). rewrite (bind_eq Hsel).
  destruct c; [done| |];
    apply bind_returned in E as (t' & w0 & Hrecv & E); rewrite (bind_eq Hrecv);
    apply bind_returned in E as (rp & w2 & Hcmd & E); rewrite (bind_eq Hcmd);
    destruct (Int64 rp) as [cur [e|]]; try done;
    destruct (negb (cur =? prev)); try done; apply IH; first [lia | done].
Qed.

Lemma saveBlocking_fuel_mono {fuel fuel' ctx addr w r w'} :
  (fuel <= fuel')%nat ->
  saveBlocking fuel ctx addr w = (Returned r, w') ->
  saveBlocking fuel' ctx addr w = (Returned r, w').
Proof.
  intros Hle E. unfold saveBlocking in *.
  apply bind_returned in E as (err & w1 & Hdial & E). rewrite (bind_eq Hdial).
  destruct err as [e|]; [done|].
  apply bind_returned in E as (out & w2 & Hbody & E).
  rewrite (bind_eq (a := out) (w1 := w2)); [done|]. clear E.
  apply bind_returned in Hbody as (rp & w3 & Hcmd & E). rewrite (bind_eq Hcmd).
  destruct (Int64 rp) as [prev [e|]]; [done|].
  apply bind_returned in E as (rb & w4 & Hcmd' & E). rewrite (bind_eq Hcmd').
  destruct (Err rb); [done|].
  apply bind_returned in E as (t & w5 & Htick & E). rewrite (bind_eq Htick).
  by eapply poll_fuel_mono.
Qed.

Lemma savePass_fuel_mono {fuel fuel' ctx addrs w r w'} :
  (fuel <= fuel')%nat ->
  savePass fuel ctx addrs w = (Returned r, w') ->
  savePass fuel' ctx addrs w = (Returned r, w').
Proof.
  intros Hle. revert w. induction addrs as [|addr rest IH]; intros w E; [done|].
  cbn [savePass] in *.
  apply bind_returned in E as (begin & w1 & Hnow & E). rewrite (bind_eq Hnow).
  apply bind_returned in E as (err & w2 & Hsave & E).
  rewrite (bind_eq (saveBlocking_fuel_mono Hle Hsave)).
  apply bind_returned in E as (u & w3 & Hlog & E). rewrite (bind_eq Hlog).
  apply bind_returned in E as (d & w4 & Hd & E). rewrite (bind_eq Hd).
  destruct d; [done | auto].
Qed.

Lemma passes_fuel_mono fuel fuel' ctx addrs w r w' :
  (fuel <= fuel')%nat ->
  passes fuel ctx addrs w = (Returned r, w') ->
  passes fuel' ctx addrs w = (Returned r, w').
Proof.
  revert fuel' w. induction fuel as [|fuel IH]; intros fuel' w Hle E; [done|].
  destruct fuel' as [|fuel']; [lia|]. cbn [passes] in *.
  assert (Hle' : (fuel <= fuel')%nat) by lia.
  apply bind_returned in E as (p & w1 & Hpass & E).
  rewrite (bind_eq (savePass_fuel_mono Hle' Hpass)).
  destruct p as [e|]; [done|].
  apply bind_returned in E as (t & w2 & Hnow & E). rewrite (bind_eq Hnow).
  apply bind_returned in E as (c & w3 & Hsel & E). rewrite (bind_eq Hsel).
  destruct c; [done| |]; apply IH; first [lia | done].
Qed.

(** A run of [do] that has returned returns the same with more fuel. *)
Lemma do_fuel_mono fuel fuel' ctx addrs w r w' :
  (fuel <= fuel')%nat ->
  do fuel ctx addrs w = (Returned r, w') ->
  do fuel' ctx addrs w = (Returned r, w').
Proof.
  intros Hle E. unfold do in *. destruct (length addrs =? 0)%nat; [done|].
  apply bind_returned in E as (u & w1 & Hdis & E). rewrite (bind_eq Hdis).
  by eapply passes_fuel_mono.
Qed.

(** ** C1: success means that the marker changed *)

Lemma polled_markers ctx addr prev t0 t new r :
  polled ctx addr prev t0 t new r ->
  r = Returned None <-> exists cur, cur ∈ markers new /\ cur <> prev.
Proof.
  induction 1 as [| |t0 t t1 t2 rp e _ _ _ Hrp|t0 t t1 t2 cur|t0 t t1 t2 new r _ _ _ _ IH];
    cbn.
  - split; [done | intros (cur & Hin & _); inversion Hin].
  - split; [done | intros (cur & Hin & _); inversion Hin].
  - destruct rp; cbn in *; try done;
      (split; [done | intros (cur & Hin & _); inversion Hin]).
  - split; [intros _ | done]. exists cur. split; [by left | done].
  - rewrite IH. split; intros (cur & Hin & Hne); exists cur; (split; [|done]).
    + by right.
    + by inversion Hin; subst.
Qed.

(** The polls until the marker changes: the host answers [k] polls with
    [prev] and the next with [cur]. *)
Lemma poll_until_change ctx addr prev cur k :
  forall fuel t w,
    (k < fuel)%nat ->
    (forall i, (i < k)%nat -> resp (env w (pos w + 1 + 2 * i)) = RInt prev) ->
    resp (env w (pos w + 1 + 2 * k)) = RInt cur -> cur <> prev ->
    now (snd (poll fuel ctx addr prev t w)) < deadline ctx ->
    fst (poll fuel ctx addr prev t w) = Returned None /\
    markers (since w (snd (poll fuel ctx addr prev t w))) = replicate k prev ++ [cur].
Proof.
  induction k as [|k IH]; intros fuel t w Hk Hprev Hcur Hne;
    (destruct fuel as [|fuel]; [lia|]); cbn [poll];
    destruct (select_cases ctx TickerC (due t) w) as (got & t1 & Hsel & Hcase);
    rewrite (bind_eq Hsel);
    (destruct Hcase as [(-> & Ht1 & _)|(-> & Ht1 & _)];
     [unfold ctxErr; cbn [snd now]; lia|]);
    rewrite (bind_eq (received_eq _ _)), (bind_eq (Cmd_eq _ _ _ _)); cbn [env pos now].
  - replace (pos w + 1 + 2 * 0)%nat with (S (pos w)) in Hcur by lia.
    rewrite Hcur. cbn [Int64]. destruct (Z.eqb_spec cur prev); [done|].
    cbn [negb ret fst snd]. intros _. split; [done|].
    erewrite since_app; [|cbn [trace]; rewrite <- app_assoc; reflexivity]. done.
  - pose proof (Hprev 0%nat ltac:(lia)) as H0.
    replace (pos w + 1 + 2 * 0)%nat with (S (pos w)) in H0 by lia.
    rewrite H0. cbn [Int64]. rewrite Z.eqb_refl. cbn [negb].
    match goal with |- context [poll fuel ctx addr prev (ticked t t1) ?w2] =>
      set (w2' := w2) end.
    intros Hnow. destruct (IH fuel (ticked t t1) w2') as [Hr Hm]; try done.
    + lia.
    + intros i Hi. cbn [env pos w2']. rewrite <- (Hprev (S i)) by lia. f_equal. f_equal. lia.
    + cbn [env pos w2']. rewrite <- Hcur. f_equal. f_equal. lia.
    + split; [done|].
      destruct (poll fuel ctx addr prev (ticked t t1) w2') as [r w'] eqn:E. cbn [snd] in *.
      apply poll_polled in E as (new & Ht & _). rewrite (since_app Ht) in Hm.
      erewrite since_app; [|rewrite Ht; cbn [trace w2']; rewrite <- !app_assoc; reflexivity].
      cbn. unfold markers in Hm. by rewrite Hm.
Qed.


(** ** C10: no read of the marker before the first tick *)

Lemma not_in_tail {tail l : list (Z * event)} {rd l'} :
  Forall (fun e => isRead e = false) tail ->
  tail = l ++ rd :: l' -> isRead rd = true -> False.
Proof.
  intros Hf -> Hrd. apply Forall_app in Hf as [_ Hf].
  apply Forall_cons in Hf as [Hf _]. congruence.
Qed.

Lemma polled_reads {ctx addr prev t0 t new r} tail :
  polled ctx addr prev t0 t new r -> 0 <= period t ->
  Forall (fun e => isRead e = false) tail ->
  forall l3 rd l4,
    new ++ tail = l3 ++ rd :: l4 -> isRead rd = true ->
    exists l5 tk, l3 = l5 ++ [(tk, ERecv TickerC)] /\ due t <= tk /\ tk <= fst rd.
Proof.
  intros Hp Hper Htail.
  induction Hp as [| | | |t0 t t1 t2 new r ? Hdue ? Hp IH]; intros l3 rd l4 E Hrd.
  - cbn in E. destruct (not_in_tail Htail E Hrd).
  - destruct l3 as [|x l3]; cbn in E; simplify_eq; try done.
    exfalso. eauto using not_in_tail.
  - destruct l3 as [|x [|y l3]]; cbn in E; simplify_eq; try done.
    + exists [], t1. cbn. done.
    + exfalso. eauto using not_in_tail.
  - destruct l3 as [|x [|y l3]]; cbn in E; simplify_eq; try done.
    + exists [], t1. cbn. done.
    + exfalso. eauto using not_in_tail.
  - destruct l3 as [|x [|y l3]]; cbn in E; simplify_eq; try done.
    + exists [], t1. cbn. done.
    + match goal with H : _ ++ _ = _ ++ _ :: _ |- _ =>
        destruct (IH Hper _ _ _ H Hrd) as (l5 & tk & -> & Hd & Hle) end.
      pose proof (ticked_due t t1 Hper Hdue). eexists (_ :: _ :: l5), tk.
      split; [done | lia].
Qed.

Lemma polled_success_time ctx addr prev t0 t new :
  polled ctx addr prev t0 t new (Returned None) -> 0 <= period t ->
  due t <= endTime t0 new /\ exists tk, (tk, ERecv TickerC) ∈ new /\ due t <= tk.
Proof.
  remember (Returned None) as r eqn:Hr. intros Hp Hper.
  induction Hp as [| | |t0 t t1 t2 cur|t0 t t1 t2 new r ? Hdue ? Hp IH]; try done.
  - split; [rewrite !endTime_cons, endTime_nil; cbn; lia|].
    exists t1. split; [by left | done].
  - destruct (IH Hr Hper) as (Hend & tk & Hin & Hle).
    pose proof (ticked_due t t1 Hper Hdue).
    rewrite !endTime_cons. cbn [fst]. split; [lia|].
    exists t1. split; [by left | done].
Qed.

(** C10. Once the save trigger is answered (at time t0), every later read
    of the last-save marker by saveBlocking comes right after the receipt of
    a tick of the 10-second ticker, and that tick is received no earlier
    than t0 + 10 s; so saveBlocking returns nil only after a tick, at a time
    that is at least 10 s after the trigger, even when the save was instant. *)
Theorem saveBlocking_reads_only_after_tick fuel ctx addr w t0 :
  let out := saveBlocking fuel ctx addr w in
  let new := since w (snd out) in
  triggerTime new = Some t0 ->
  (forall l3 rd l4,
     afterTrigger new = l3 ++ rd :: l4 -> isRead rd = true ->
     exists l5 tk, l3 = l5 ++ [(tk, ERecv TickerC)] /\
                   t0 + 10 * Second <= tk /\ tk <= fst rd) /\
  (fst out = Returned None ->
   (exists tk, (tk, ERecv TickerC) ∈ afterTrigger new /\ t0 + 10 * Second <= tk) /\
   t0 + 10 * Second <= now (snd out)).
Proof.
  cbv zeta. destruct (saveBlocking fuel ctx addr w) as [r w'] eqn:E. cbn [fst snd].
  apply saveBlocking_attempt in E as (new & Ht & Hn & Ha).
  rewrite (since_app Ht), Hn. clear Ht Hn.
  inversion Ha; subst; cbn; try done.
  - unfold triggerTime. cbn. intros [= <-]. split; [|done].
    intros [|x l3] rd l4 E Hrd; cbn in E; simplify_eq; try done.
    by destruct l3.
  - unfold triggerTime. cbn. intros [= <-]. split; [|done].
    intros l3 rd l4 E Hrd. rewrite <- (app_nil_r new0) in E.
    match goal with H : polled _ _ _ _ _ _ _ |- _ =>
      pose proof (polled_reads [] H) as HH end.
    apply (HH ltac:(by unfold Second, Nanosecond) ltac:(constructor) l3 rd l4 E Hrd).
  - unfold triggerTime. cbn. intros [= <-]. split.
    + intros l3 rd l4 E Hrd.
      match goal with H : polled _ _ _ _ _ _ _ |- _ =>
        pose proof (polled_reads [(endTime t4 new0, EClose addr)] H) as HH end.
      apply (HH ltac:(by unfold Second, Nanosecond) ltac:(by repeat constructor) l3 rd l4 E Hrd).
    + intros [= ->].
      match goal with H : polled _ _ _ _ _ _ _ |- _ =>
        apply polled_success_time in H as (Hend & tk & Hin & Hle);
          [|by unfold Second, Nanosecond] end.
      cbn in Hend, Hle. split.
      * exists tk. split; [|done]. apply elem_of_app. by left.
      * rewrite !endTime_cons, endTime_snoc. done.
Qed.

(** ** [do] runs as [disabled] and [saving] say *)

Lemma endTime_app t0 l1 l2 : endTime t0 (l1 ++ l2) = endTime (endTime t0 l1) l2.
Proof.
  revert t0. induction l1 as [|x l1 IH]; intros t0; [done|].
  cbn [app]. by rewrite !endTime_cons, IH.
Qed.

Lemma disablePersistence_toggled addr w r w' :
  disablePersistence addr w = (r, w') ->
  exists new err,
    r = Returned err /\ trace w' = trace w ++ new /\ now w' = endTime (now w) new /\
    toggled addr (now w) new err.
Proof.
  intros E. run_in E.
  destruct (dial_err (env w (pos w))) as [e|] eqn:Hdial; cbn in E; simplify_eq.
  - eexists _, _. split_and!; [done..|]. constructor; tlia.
  - eexists _, _. cbn. rewrite <- !app_assoc. split_and!; [done..|].
    apply toggled_cmd; tlia.
Qed.

Lemma disableAll_disabled addrs w r w' :
  disableAll addrs w = (r, w') ->
  exists new,
    r = Returned tt /\ trace w' = trace w ++ new /\ now w' = endTime (now w) new /\
    disabled (now w) addrs new.
Proof.
  revert w. induction addrs as [|addr rest IH]; intros w E.
  - run_in E. simplify_eq. exists []. rewrite app_nil_r. split_and!; [done..|constructor].
  - cbn [disableAll] in E. unfold bind at 1 in E.
    destruct (disablePersistence addr w) as [r1 w1] eqn:E1.
    apply disablePersistence_toggled in E1 as (new & err & -> & Ht & Hn & Htog).
    unfold bind at 1 in E.
    destruct err as [e|]; run_in E.
    + apply IH in E as (new' & -> & Ht' & Hn' & Hd). cbn in Ht', Hn', Hd.
      exists (new ++ toggleLog addr (endTime (now w) new) (Some e) ++ new').
      split_and!; [done| | |].
      * rewrite Ht', Ht, Hn, <- !app_assoc. done.
      * rewrite Hn', !endTime_app, Hn. done.
      * econstructor; [done|]. by rewrite <- Hn.
    + apply IH in E as (new' & -> & Ht' & Hn' & Hd).
      exists (new ++ toggleLog addr (endTime (now w) new) None ++ new').
      split_and!; [done| | |].
      * rewrite Ht', Ht, <- !app_assoc. done.
      * rewrite Hn', !endTime_app, Hn. done.
      * econstructor; [done|]. by rewrite <- Hn.
Qed.

Lemma savePass_passed fuel ctx addrs w r w' :
  savePass fuel ctx addrs w = (r, w') ->
  exists new,
    trace w' = trace w ++ new /\ now w' = endTime (now w) new /\
    passed ctx (now w) addrs new r.
Proof.
  revert w. induction addrs as [|addr rest IH]; intros w E.
  - run_in E. simplify_eq. exists []. rewrite app_nil_r. split_and!; [done..|constructor].
  - cbn [savePass] in E. unfold bind at 1, Now in E. unfold bind at 1 in E.
    destruct (saveBlocking fuel ctx addr w) as [[err|] w1] eqn:E1;
      apply saveBlocking_attempt in E1 as (new & Ht & Hn & Ha).
    2: { simplify_eq. exists new. split_and!; [done..|]. by constructor. }
    assert (exists w2, w2 = {| env := env w1; pos := pos w1; now := now w1;
                               trace := trace w1 ++ [saveLog addr (now w) (now w1) err] |} /\
              (if deadline ctx <=? now w1 then (Returned (Some DeadlineExceeded), w2)
               else savePass fuel ctx rest w2) = (r, w')) as (w2 & Hw2 & E2).
    { eexists. split; [reflexivity|]. rewrite <- E.
      destruct err; unfold bind, Log, emit, Now, ctxDone, ctxErr; cbn;
        destruct (deadline ctx <=? now w1) eqn:Hd; cbn; rewrite ?Hd; reflexivity. }
    clear E. destruct (Z.leb_spec (deadline ctx) (now w1)) as [Hlate|Hearly].
    + simplify_eq. eexists. cbn. rewrite Ht, <- app_assoc. split_and!; [done| |].
      * unfold saveLog. by rewrite endTime_snoc.
      * rewrite Hn. apply passed_abort; [done|]. by rewrite <- Hn.
    + apply IH in E2 as (new' & Ht' & Hn' & Hp). subst w2. cbn in Ht', Hn', Hp.
      eexists. rewrite Ht', Ht, <- !app_assoc. cbn. split_and!; [done| |].
      * rewrite Hn', endTime_app, endTime_cons. done.
      * rewrite Hn. rewrite Hn in Hp, Hearly. by eapply passed_next.
Qed.

Lemma passes_saving fuel ctx addrs w r w' :
  passes fuel ctx addrs w = (r, w') ->
  exists new,
    trace w' = trace w ++ new /\ now w' = endTime (now w) new /\
    saving ctx addrs (now w) new r.
Proof.
  revert w. induction fuel as [|fuel IH]; intros w E.
  - run_in E. simplify_eq. exists []. rewrite app_nil_r. split_and!; [done..|constructor].
  - cbn [passes] in E. unfold bind at 1 in E.
    destruct (savePass fuel ctx addrs w) as [[[e|]|] w1] eqn:E1;
      apply savePass_passed in E1 as (new & Ht & Hn & Hp).
    + run_in E. simplify_eq. exists new. split_and!; [done..|]. by constructor.
    + run_in E.
      destruct (select_cases ctx TimeAfter (now w1 + 10 * Second) w1)
        as (got & t1 & Hsel & Hcase).
      rewrite Hsel in E.
      destruct Hcase as [(-> & Ht1 & Hle & _)|(-> & Ht1 & Hle & _)]; cbn in E.
      * destruct (Z.leb_spec (deadline ctx) t1); [|lia]. simplify_eq.
        eexists. cbn. rewrite Ht, <- app_assoc. split_and!; [done| |].
        -- by rewrite endTime_snoc.
        -- apply saving_deadline; first [done | tlia].
      * apply IH in E as (new' & Ht' & Hn' & Hs). cbn in Ht', Hn', Hs.
        eexists. rewrite Ht', Ht, <- !app_assoc. cbn. split_and!; [done| |].
        -- rewrite Hn', endTime_app, endTime_cons. done.
        -- eapply saving_again; first [done | tlia].
    + simplify_eq. exists new. split_and!; [done..|]. by constructor.
Qed.

Lemma do_empty fuel ctx w :
  do fuel ctx [] w = (Returned (Some (ErrorString "empty addresses")), w).
Proof. reflexivity. Qed.

Lemma do_run fuel ctx addrs w r w' :
  addrs <> [] ->
  do fuel ctx addrs w = (r, w') ->
  exists new1 new2,
    trace w' = trace w ++ new1 ++ new2 /\
    now w' = endTime (now w) (new1 ++ new2) /\
    disabled (now w) addrs new1 /\
    saving ctx addrs (endTime (now w) new1) new2 r.
Proof.
  intros Hne E. unfold do in E. destruct addrs as [|a rest]; [done|].
  cbn [length Nat.eqb] in E. unfold bind at 1 in E.
  destruct (disableAll (a :: rest) w) as [r1 w1] eqn:E1.
  apply disableAll_disabled in E1 as (new1 & -> & Ht1 & Hn1 & Hd).
  apply passes_saving in E as (new2 & Ht2 & Hn2 & Hs).
  exists new1, new2. split_and!; [| |done|].
  - by rewrite Ht2, Ht1, <- app_assoc.
  - by rewrite Hn2, Hn1, endTime_app.
  - by rewrite <- Hn1.
Qed.

(** ** Times along a run *)

Lemma increasing_app t0 l1 l2 :
  increasing t0 (l1 ++ l2) <-> increasing t0 l1 /\ increasing (endTime t0 l1) l2.
Proof.
  revert t0. induction l1 as [|x l1 IH]; intros t0; cbn [app increasing].
  - rewrite endTime_nil. tauto.
  - rewrite endTime_cons, IH. tauto.
Qed.

Lemma increasing_end t0 l : increasing t0 l -> t0 <= endTime t0 l.
Proof.
  revert t0. induction l as [|x l IH]; intros t0; cbn [increasing].
  - rewrite endTime_nil. lia.
  - rewrite endTime_cons. intros [? H%IH]. lia.
Qed.

Lemma increasing_elem t0 l t e :
  increasing t0 l -> (t, e) ∈ l -> t0 <= t <= endTime t0 l.
Proof.
  intros Hi Hin. apply list_elem_of_split in Hin as (l1 & l2 & ->).
  apply increasing_app in Hi as [H1 H2]. cbn [increasing fst] in H2. destruct H2 as [H2 H3].
  rewrite endTime_app, endTime_cons. cbn [fst].
  apply increasing_end in H1, H3. lia.
Qed.

Lemma polled_increasing ctx addr prev t0 t new r :
  polled ctx addr prev t0 t new r -> increasing t0 new.
Proof. induction 1; cbn [increasing fst]; repeat split; first [lia | done]. Qed.

Lemma attempt_increasing ctx addr t0 new r : attempt ctx addr t0 new r -> increasing t0 new.
Proof.
  destruct 1; cbn [increasing fst]; repeat split; try lia;
    match goal with H : polled _ _ _ _ _ _ _ |- _ => apply polled_increasing in H end;
    [done|].
  apply increasing_app. split; [done|]. cbn [increasing fst]. split; [lia | done].
Qed.

Lemma toggled_increasing addr t0 new err : toggled addr t0 new err -> increasing t0 new.
Proof. destruct 1; cbn [increasing fst]; repeat split; lia. Qed.

Lemma disabled_increasing t0 addrs new : disabled t0 addrs new -> increasing t0 new.
Proof.
  induction 1 as [|t0 addr rest new err new' Ht _ IH]; [done|].
  apply toggled_increasing in Ht.
  apply increasing_app. split; [done|]. destruct err; cbn [toggleLog app]; [|done].
  cbn [increasing fst]. split; [lia|done].
Qed.

Lemma passed_increasing ctx t0 addrs new r : passed ctx t0 addrs new r -> increasing t0 new.
Proof.
  induction 1 as [|t0 addr rest new Ha|t0 addr rest new err Ha Hlate
                 |t0 addr rest new err new' r Ha Hearly _ IH];
    try apply attempt_increasing in Ha; try done.
  - apply increasing_app. split; [done|]. cbn. split; [lia|done].
  - apply increasing_app. split; [done|]. cbn. split; [lia|done].
Qed.

Lemma saving_increasing ctx addrs t0 new r : saving ctx addrs t0 new r -> increasing t0 new.
Proof.
  induction 1 as [|t0 new Hp|t0 new e Hp|t0 new t1 Hp|t0 new t1 new' r Hp Hle _ IH];
    try apply passed_increasing in Hp; try done.
  - apply increasing_app. split; [done|]. cbn. split; [lia|done].
  - apply increasing_app. split; [done|]. cbn. split; [|done].
    unfold Second, Nanosecond in Hle. lia.
Qed.

(** *** Every step ends in time *)

Lemma timely_app ctx t0 l1 l2 :
  timely ctx t0 (l1 ++ l2) <-> timely ctx t0 l1 /\ timely ctx (endTime t0 l1) l2.
Proof.
  revert t0. induction l1 as [|x l1 IH]; intros t0; cbn [app timely].
  - rewrite endTime_nil. tauto.
  - rewrite endTime_cons, IH. tauto.
Qed.

Lemma polled_timely ctx addr prev t0 t new r :
  polled ctx addr prev t0 t new r -> timely ctx t0 new.
Proof. induction 1; cbn; repeat split; first [lia | done]. Qed.

Lemma attempt_timely ctx addr t0 new r : attempt ctx addr t0 new r -> timely ctx t0 new.
Proof.
  destruct 1; cbn; repeat split; try lia;
    match goal with H : polled _ _ _ _ _ _ _ |- _ => apply polled_timely in H end;
    [done|].
  apply timely_app. split; [done|]. cbn. split; [lia | done].
Qed.

Lemma toggled_timely ctx addr t0 new err : toggled addr t0 new err -> timely ctx t0 new.
Proof. destruct 1; cbn; repeat split; lia. Qed.

Lemma disabled_timely ctx t0 addrs new : disabled t0 addrs new -> timely ctx t0 new.
Proof.
  induction 1 as [|t0 addr rest new err new' Ht _ IH]; [done|].
  apply timely_app. split; [by eapply toggled_timely|].
  destruct err; cbn [toggleLog app]; [|done]. cbn. split; [lia|done].
Qed.

Lemma passed_timely ctx t0 addrs new r : passed ctx t0 addrs new r -> timely ctx t0 new.
Proof.
  induction 1 as [|t0 addr rest new Ha|t0 addr rest new err Ha Hlate
                 |t0 addr rest new err new' r Ha Hearly _ IH];
    try apply attempt_timely in Ha; try done.
  - apply timely_app. split; [done|]. cbn. split; [lia|done].
  - apply timely_app. split; [done|]. cbn. split; [lia|done].
Qed.

Lemma saving_timely ctx addrs t0 new r : saving ctx addrs t0 new r -> timely ctx t0 new.
Proof.
  induction 1 as [|t0 new Hp|t0 new e Hp|t0 new t1 Hp|t0 new t1 new' r Hp Hle _ IH];
    try apply passed_timely in Hp; try done.
  - apply timely_app. split; [done|]. cbn. split; [lia|done].
  - apply timely_app. split; [done|]. cbn. split; [lia|done].
Qed.

(** A run of [do]: its events in the order of time, each within its bound. *)
Lemma do_steps fuel ctx addrs w l1 e l2 :
  since w (snd (do fuel ctx addrs w)) = l1 ++ e :: l2 ->
  endTime (now w) l1 <= fst e <= latest ctx (endTime (now w) l1) e.
Proof.
  destruct (do fuel ctx addrs w) as [r w'] eqn:Edo. cbn [snd]. intros E.
  destruct addrs as [|a rest].
  { rewrite do_empty in Edo. simplify_eq. rewrite since_refl in E. by destruct l1. }
  apply do_run in Edo as (new1 & new2 & Ht & _ & Hd & Hs); [|done].
  rewrite (since_app Ht) in E.
  assert (Hi : increasing (now w) (new1 ++ new2)).
  { apply increasing_app. split; [by eapply disabled_increasing|by eapply saving_increasing]. }
  assert (Hb : timely ctx (now w) (new1 ++ new2)).
  { apply timely_app. split; [by eapply disabled_timely|by eapply saving_timely]. }
  rewrite E in Hi, Hb. apply increasing_app in Hi as [_ [Hi _]].
  apply timely_app in Hb as [_ [Hb _]]. done.
Qed.

(** ** C2: one save attempt at a time *)

Lemma conns_app open l1 l2 : conns open (l1 ++ l2) = conns (conns open l1) l2.
Proof. apply fold_left_app. Qed.

Lemma sequential_app open l1 l2 :
  sequential open (l1 ++ l2) <-> sequential open l1 /\ sequential (conns open l1) l2.
Proof.
  revert open. induction l1 as [|e l1 IH]; intros open; cbn; [tauto|].
  rewrite IH. tauto.
Qed.

Lemma polled_sequential ctx addr prev t0 t new r :
  polled ctx addr prev t0 t new r ->
  sequential [addr] new /\ conns [addr] new = [addr].
Proof.
  induction 1; cbn; unfold isTrigger; cbn; repeat split; try done; try lia; tauto.
Qed.

Lemma attempt_sequential ctx addr t0 new r :
  attempt ctx addr t0 new r ->
  sequential [] new /\ (forall x, r = Returned x -> conns [] new = []).
Proof.
  destruct 1;
    try match goal with H : polled _ _ _ _ _ _ _ |- _ =>
          apply polled_sequential in H as [Hs Hc] end;
    cbn; unfold isTrigger; cbn; rewrite ?String.eqb_refl;
    repeat split; try done; try lia; eauto.
  - apply sequential_app. split; [done|]. rewrite Hc. cbn. unfold isTrigger, connStep. cbn.
    rewrite String.eqb_refl. cbn. repeat split; try done; lia.
  - intros _ _. change (conns [addr] (new ++ [(endTime t3 new, EClose addr)]) = []).
    rewrite conns_app, Hc. cbn. unfold connStep. cbn. by rewrite String.eqb_refl.
Qed.

Lemma toggled_sequential addr t0 new err :
  toggled addr t0 new err -> sequential [] new /\ conns [] new = [].
Proof.
  destruct 1; cbn; unfold isTrigger, connStep; cbn; rewrite ?String.eqb_refl; cbn;
    repeat split; try done; lia.
Qed.

Lemma toggleLog_sequential addr t err :
  sequential [] (toggleLog addr t err) /\ conns [] (toggleLog addr t err) = [].
Proof. destruct err; cbn; unfold isTrigger; cbn; repeat split; try done; lia. Qed.

Lemma disabled_sequential t0 addrs new :
  disabled t0 addrs new -> sequential [] new /\ conns [] new = [].
Proof.
  induction 1 as [|t0 addr rest new err new' Ht _ [IHs IHc]]; [done|].
  apply toggled_sequential in Ht as [Hs Hc].
  destruct (toggleLog_sequential addr (endTime t0 new) err) as [Hls Hlc].
  rewrite !sequential_app, !conns_app, Hc, Hlc. done.
Qed.

Lemma saveLog_sequential addr t0 t err rest :
  sequential [] (saveLog addr t0 t err :: rest) <-> sequential [] rest.
Proof. cbn. unfold isTrigger. cbn. intuition (done || lia). Qed.

Lemma passed_sequential ctx t0 addrs new r :
  passed ctx t0 addrs new r ->
  sequential [] new /\ (forall x, r = Returned x -> conns [] new = []).
Proof.
  induction 1 as [|t0 addr rest new Ha|t0 addr rest new err Ha
                 |t0 addr rest new err new' r Ha _ _ [IHs IHc]].
  - done.
  - apply attempt_sequential in Ha as [Hs _]. done.
  - apply attempt_sequential in Ha as [Hs Hc].
    rewrite sequential_app, conns_app, (Hc _ eq_refl), saveLog_sequential. done.
  - apply attempt_sequential in Ha as [Hs Hc].
    rewrite sequential_app, conns_app, (Hc _ eq_refl), saveLog_sequential. done.
Qed.

Lemma saving_sequential ctx addrs t0 new r :
  saving ctx addrs t0 new r -> sequential [] new.
Proof.
  induction 1 as [|t0 new Hp|t0 new e Hp|t0 new t1 Hp|t0 new t1 new' r Hp _ _ IH];
    try (apply passed_sequential in Hp as [Hs Hc]); try done.
  - rewrite sequential_app, (Hc _ eq_refl). cbn. unfold isTrigger. cbn.
    repeat split; try done; lia.
  - rewrite sequential_app, (Hc _ eq_refl). cbn. unfold isTrigger. cbn.
    repeat split; try done; lia.
Qed.

(** C2. In every run of [do], over any list of hosts and in any
    environment: at every event the number of open connections is at most
    one; when a save trigger (BGSAVE) is sent to a host b, the connection to
    b is the only one open; and a host is dialled only when no connection is
    open. Every earlier saveBlocking call has then closed its connection,
    which it does as it returns. *)
Theorem do_one_attempt_at_a_time fuel ctx addrs w l1 e l2 :
  since w (snd (do fuel ctx addrs w)) = l1 ++ e :: l2 ->
  (length (conns [] (l1 ++ [e])) <= 1)%nat /\
  (isTrigger e = true ->
   exists b r, snd e = ECmd b ["BGSAVE"] r /\ conns [] l1 = [b]) /\
  (isDial e = true -> conns [] l1 = []).
Proof.
  destruct (do fuel ctx addrs w) as [r w'] eqn:E. cbn [snd].
  destruct addrs as [|a rest].
  { rewrite do_empty in E. simplify_eq. rewrite since_refl. by destruct l1. }
  apply do_run in E as (new1 & new2 & Ht & _ & Hd & Hs); [|done].
  rewrite (since_app Ht). intros Hnew.
  apply disabled_sequential in Hd as [Hd Hc]. apply saving_sequential in Hs.
  assert (Hall : sequential [] (l1 ++ e :: l2)).
  { rewrite <- Hnew. apply sequential_app. by rewrite Hc. }
  apply sequential_app in Hall as [_ (Htrig & Hdial & Hlen & _)].
  rewrite conns_app. done.
Qed.

(** ** C3: the check after each host *)

Lemma app_eq_app_cons {A} (k1 k2 l1 : list A) e l2 :
  k1 ++ k2 = l1 ++ e :: l2 ->
  (exists k, k1 = l1 ++ e :: k /\ l2 = k ++ k2) \/
  (exists k, l1 = k1 ++ k /\ k2 = k ++ e :: l2).
Proof.
  revert l1. induction k1 as [|x k1 IH]; intros l1 E; cbn in E.
  - right. by exists l1.
  - destruct l1 as [|y l1]; cbn in E; injection E as -> E.
    + left. by exists k1.
    + destruct (IH _ E) as [(k & -> & ->)|(k & -> & ->)]; [left|right]; by exists k.
Qed.

Lemma polled_no_log ctx addr prev t0 t new r :
  polled ctx addr prev t0 t new r -> Forall (fun e => isLog e = false) new.
Proof. induction 1; by repeat constructor. Qed.

Lemma attempt_no_log ctx addr t0 new r :
  attempt ctx addr t0 new r -> Forall (fun e => isLog e = false) new.
Proof.
  destruct 1; repeat constructor; try done;
    try apply Forall_app; eauto using polled_no_log.
Qed.

Lemma no_log_inside {new l1 t m l2} :
  Forall (fun e => isLog e = false) new -> new = l1 ++ (t, ELog m) :: l2 -> False.
Proof.
  intros Hf ->. apply Forall_app in Hf as [_ Hf]. by apply Forall_cons in Hf as [Hf _].
Qed.

Lemma passed_late_log {ctx t0 addrs new r} :
  passed ctx t0 addrs new r ->
  forall l1 t m l2,
    new = l1 ++ (t, ELog m) :: l2 -> deadline ctx <= t ->
    l2 = [] /\ r = Returned (Some DeadlineExceeded).
Proof.
  induction 1 as [|t0 addr rest new Ha|t0 addr rest new err Ha Hlate
                 |t0 addr rest new err new' r Ha Hearly _ IH];
    intros l1 t m l2 E Ht.
  - by destruct l1.
  - apply attempt_no_log in Ha. destruct (no_log_inside Ha E).
  - apply attempt_no_log in Ha.
    apply app_eq_app_cons in E as [(k & E & _)|(k & _ & E)].
    + destruct (no_log_inside Ha E).
    + destruct k as [|x k]; cbn in E; simplify_eq; [done|]. by destruct k.
  - apply attempt_no_log in Ha.
    apply app_eq_app_cons in E as [(k & E & _)|(k & _ & E)].
    + destruct (no_log_inside Ha E).
    + destruct k as [|x k]; cbn in E; unfold saveLog in E; simplify_eq; [lia|].
      eauto.
Qed.

Lemma saving_late_log ctx addrs t0 new r :
  saving ctx addrs t0 new r ->
  forall l1 t m l2,
    new = l1 ++ (t, ELog m) :: l2 -> deadline ctx <= t ->
    l2 = [] /\ r = Returned (Some DeadlineExceeded).
Proof.
  induction 1 as [|t0 new Hp|t0 new e Hp|t0 new t1 Hp|t0 new t1 new' r Hp _ _ IH];
    intros l1 t m l2 E Ht.
  - by destruct l1.
  - eapply passed_late_log; eauto.
  - eapply passed_late_log; eauto.
  - apply app_eq_app_cons in E as [(k & E & _)|(k & _ & E)].
    + by destruct (passed_late_log Hp _ _ _ _ E Ht).
    + destruct k as [|x k]; cbn in E; simplify_eq. by destruct k.
  - apply app_eq_app_cons in E as [(k & E & _)|(k & _ & E)].
    + by destruct (passed_late_log Hp _ _ _ _ E Ht).
    + destruct k as [|x k]; cbn in E; simplify_eq. eauto.
Qed.

Lemma disableAll_returns addrs w : fst (disableAll addrs w) = Returned tt.
Proof.
  destruct (disableAll addrs w) as [r w1] eqn:E.
  by apply disableAll_disabled in E as (? & -> & _).
Qed.

Lemma do_passes fuel ctx addrs w :
  addrs <> [] ->
  do fuel ctx addrs w = passes fuel ctx addrs (snd (disableAll addrs w)).
Proof.
  intros Hne. unfold do. destruct addrs as [|a rest]; [done|]. cbn [length Nat.eqb].
  unfold bind. pose proof (disableAll_returns (a :: rest) w) as Hr.
  destruct (disableAll (a :: rest) w) as [r w1]. cbn in Hr. by subst r.
Qed.


(** ** C8: the shuffle *)

Lemma swap_at (x y : string) (l : list string) j :
  l !! j = Some y -> y :: <[j := x]> l ≡ₚ x :: l.
Proof.
  revert j. induction l as [|z l IH]; intros [|j] Hj; cbn in *; simplify_eq.
  - apply Permutation_swap.
  - rewrite (Permutation_swap z y), (IH _ Hj). apply Permutation_swap.
Qed.

Lemma swap_permutation (l : list string) i j x y :
  l !! i = Some x -> l !! j = Some y -> <[j := x]> (<[i := y]> l) ≡ₚ l.
Proof.
  revert i j. induction l as [|z l IH]; intros [|i] [|j] Hi Hj; cbn in *; simplify_eq.
  - done.
  - by apply swap_at.
  - rewrite swap_at; done.
  - f_equiv. eauto.
Qed.

Lemma swap_ok (l : list string) i j :
  (i < length l)%nat -> (j < length l)%nat ->
  exists l', swap l i j = Some l' /\ l' ≡ₚ l.
Proof.
  intros Hi Hj. unfold swap.
  destruct (lookup_lt_is_Some_2 l i Hi) as [x Hx].
  destruct (lookup_lt_is_Some_2 l j Hj) as [y Hy].
  rewrite Hx, Hy. eexists. split; [done|]. by apply swap_permutation.
Qed.

Section Shuffle.

Variable rnd : nat -> nat.

Lemma shuffleFrom_permutation n i (l : list string) :
  (i + n = length l)%nat ->
  exists l', shuffleFrom rnd n i l = Some l' /\ l' ≡ₚ l.
Proof.
  revert i l. induction n as [|n IH]; intros i l Hlen; cbn.
  - by exists l.
  - assert (Hj : (Intn rnd i (i + 1) < i + 1)%nat) by (apply Nat.mod_upper_bound; lia).
    destruct (swap_ok l i (Intn rnd i (i + 1))) as (l1 & -> & Hp); [lia..|].
    destruct (IH (S i) l1) as (l2 & -> & Hp2).
    { apply Permutation_length in Hp. lia. }
    exists l2. split; [done|]. by rewrite Hp2.
Qed.

(** C8. For every list of hosts, of any length, and every random source,
    the shuffle of [main] ends without an index out of range and gives a
    permutation of the list: no host is lost or duplicated; a list of zero
    or one host comes out unchanged. *)
Theorem shuffle_is_permutation (addrs : list string) :
  exists out,
    shuffle rnd addrs = Some out /\
    out ≡ₚ addrs /\
    ((length addrs <= 1)%nat -> out = addrs).
Proof.
  destruct (shuffleFrom_permutation (length addrs) 0 addrs) as (out & E & Hp); [done|].
  exists out. split_and!; [done..|].
  intros Hlen. destruct addrs as [|a [|b rest]]; cbn in Hlen; [| |lia].
  - by apply Permutation_nil_r in Hp.
  - by apply Permutation_singleton_r in Hp.
Qed.

Lemma shuffle_nonempty (addrs : list string) :
  addrs <> [] -> exists out, shuffle rnd addrs = Some out /\ out <> [].
Proof.
  intros Hne.
  destruct (shuffleFrom_permutation (length addrs) 0 addrs) as (out & E & Hp); [done|].
  exists out. split; [done|]. intros ->. by apply Permutation_nil_l in Hp.
Qed.

End Shuffle.

(** ** C7: the address file *)

Lemma trimLeft_blank s : blank s = true -> trimLeft s = "".
Proof.
  unfold trimLeft. induction s as [|c s IH]; [done|]. cbn [blank].
  intros [Hc Hs]%andb_true_iff. cbn [String.length trimN spaceWidth]. rewrite Hc.
  cbn [skip]. auto.
Qed.

Lemma TrimSpace_blank s : blank s = true -> TrimSpace s = "".
Proof. intros H. unfold TrimSpace. by rewrite (trimLeft_blank _ H). Qed.

Lemma floorDeadline_Addresses flags : Addresses (floorDeadline flags) = Addresses flags.
Proof. unfold floorDeadline. by destruct (Deadline flags <? Minute). Qed.

(** C7 (as the code has it). readLines keeps every line of the source and
    trims the white space around each: a blank or whitespace-only line stays
    in the list, as the empty address. An empty list (a source without any
    line) makes [do] return the error "empty addresses" with the world
    untouched -- nothing was dialled -- and [main] end by log.Fatal. *)
Theorem readLines_trims_and_keeps_every_line fs name content scanErr :
  let lines := scanLines content "" in
  fs name = File content scanErr ->
  readLines fs name = (map TrimSpace lines, scanErr) /\
  length (fst (readLines fs name)) = length lines /\
  (forall l, l ∈ lines -> blank l = true -> "" ∈ fst (readLines fs name)) /\
  (forall fuel ctx w,
     do fuel ctx [] w = (Returned (Some (ErrorString "empty addresses")), w)) /\
  (forall fuel flags rnd w,
     Addresses flags = name -> lines = [] -> scanErr = None ->
     main fuel flags fs rnd w
     = (Returned ExitFatal, snd (Log (LogFatal (ErrorString "empty addresses")) w))).
Proof.
  cbv zeta. intros Hfs. unfold readLines. rewrite Hfs. cbn [fst]. split_and!.
  - done.
  - by rewrite length_map.
  - intros l Hl Hb. apply list_elem_of_fmap. exists l. by rewrite TrimSpace_blank.
  - done.
  - intros fuel flags rnd w <- Hnil ->. unfold main, readLines.
    rewrite floorDeadline_Addresses, Hfs, Hnil. reflexivity.
Qed.

(** ** C4: what races against the deadline, and what does not *)

Lemma Forall_inside {A} {P : A -> Prop} {new l1 : list A} {x l2} :
  Forall P new -> new = l1 ++ x :: l2 -> P x.
Proof.
  intros Hf ->. apply Forall_app in Hf as [_ Hf]. by apply Forall_cons in Hf as [Hf _].
Qed.

Lemma polled_done_last {ctx addr prev t0 t new r l1 t1 l2} :
  polled ctx addr prev t0 t new r ->
  new = l1 ++ (t1, ERecv CtxDone) :: l2 ->
  l2 = [] /\ r = Returned (Some DeadlineExceeded) /\ deadline ctx <= t1.
Proof.
  intros Hp. revert l1.
  induction Hp as [| | | |t0 t t2 t3 new r ? ? ? Hp IH]; intros l1 E.
  - by destruct l1.
  - destruct l1 as [|x l1]; cbn in E; simplify_eq; [done|]. by destruct l1.
  - destruct l1 as [|x [|y l1]]; cbn in E; simplify_eq. by destruct l1.
  - destruct l1 as [|x [|y l1]]; cbn in E; simplify_eq. by destruct l1.
  - destruct l1 as [|x [|y l1]]; cbn in E; simplify_eq. eauto.
Qed.

Lemma attempt_done {ctx addr t0 new r l1 t1 l2} :
  attempt ctx addr t0 new r ->
  new = l1 ++ (t1, ERecv CtxDone) :: l2 ->
  r = Returned (Some DeadlineExceeded) /\ l2 = [(t1, EClose addr)] /\
  deadline ctx <= t1 /\ endTime t0 new = t1.
Proof.
  destruct 1 as [| | |t0 t2 t3 t4 prev rb new ? ? ? ? Hp
                |t0 t2 t3 t4 prev rb new r ? ? ? ? Hp]; intros E.
  - destruct l1 as [|x [|y l1]]; cbn in E; simplify_eq.
  - destruct l1 as [|x [|y [|z [|u l1]]]]; cbn in E; simplify_eq.
  - destruct l1 as [|x [|y [|z [|u [|v l1]]]]]; cbn in E; simplify_eq.
  - destruct l1 as [|x [|y [|z l1]]]; cbn in E; simplify_eq.
    by destruct (polled_done_last Hp eq_refl) as (_ & ? & _).
  - destruct l1 as [|x [|y [|z l1]]]; cbn in E; simplify_eq.
    match goal with H : _ ++ _ = _ ++ _ :: _ |- _ =>
      apply app_eq_app_cons in H as [(k & E & ->)|(k & -> & E)] end.
    + destruct (polled_done_last Hp E) as (-> & [= ->] & Hd).
      subst new. rewrite !endTime_cons, app_nil_l, !endTime_snoc. done.
    + destruct k as [|x k]; cbn in E; simplify_eq. by destruct k.
Qed.

Lemma passed_done {ctx t0 addrs new r l1 t1 l2} :
  passed ctx t0 addrs new r ->
  new = l1 ++ (t1, ERecv CtxDone) :: l2 ->
  r = Returned (Some DeadlineExceeded) /\ deadline ctx <= t1 /\
  exists a, l2 = [(t1, EClose a); (t1, ELog (LogErr a DeadlineExceeded))].
Proof.
  intros Hp. revert l1.
  induction Hp as [|t0 addr rest new Ha|t0 addr rest new err Ha Hlate
                  |t0 addr rest new err new' r Ha Hearly _ IH]; intros l1 E.
  - by destruct l1.
  - by destruct (attempt_done Ha E) as (? & _).
  - apply app_eq_app_cons in E as [(k & E & ->)|(k & _ & E)].
    + destruct (attempt_done Ha E) as ([= ->] & -> & Hd & ->).
      split_and!; [done..|]. by exists addr.
    + destruct k as [|x k]; cbn in E; unfold saveLog in E; simplify_eq. by destruct k.
  - apply app_eq_app_cons in E as [(k & E & ->)|(k & _ & E)].
    + destruct (attempt_done Ha E) as (_ & _ & Hd & Hend). lia.
    + destruct k as [|x k]; cbn in E; unfold saveLog in E; simplify_eq. eauto.
Qed.

Lemma saving_done ctx addrs t0 new r l1 t1 l2 :
  saving ctx addrs t0 new r ->
  new = l1 ++ (t1, ERecv CtxDone) :: l2 ->
  r = Returned (Some DeadlineExceeded) /\ deadline ctx <= t1 /\
  (l2 = [] \/ exists a, l2 = [(t1, EClose a); (t1, ELog (LogErr a DeadlineExceeded))]).
Proof.
  intros Hs. revert l1.
  induction Hs as [|t0 new Hp|t0 new e Hp|t0 new t2 Hp|t0 new t2 new' r Hp _ _ IH];
    intros l1 E.
  - by destruct l1.
  - destruct (passed_done Hp E) as (? & ? & ?). eauto.
  - destruct (passed_done Hp E) as (? & ? & ?). eauto.
  - apply app_eq_app_cons in E as [(k & E & ->)|(k & _ & E)].
    + by destruct (passed_done Hp E) as (? & _).
    + destruct k as [|x k]; cbn in E; simplify_eq; [eauto|]. by destruct k.
  - apply app_eq_app_cons in E as [(k & E & ->)|(k & _ & E)].
    + by destruct (passed_done Hp E) as (? & _).
    + destruct k as [|x k]; cbn in E; simplify_eq. eauto.
Qed.

Lemma toggled_no_recv addr t0 new err :
  toggled addr t0 new err -> Forall (fun e => isRecv e = false) new.
Proof. destruct 1; by repeat constructor. Qed.

Lemma disabled_no_recv t0 addrs new :
  disabled t0 addrs new -> Forall (fun e => isRecv e = false) new.
Proof.
  induction 1 as [|t0 addr rest new err new' Ht _ IH]; [constructor|].
  rewrite !Forall_app. split_and!; [by eapply toggled_no_recv | | done].
  destruct err; by repeat constructor.
Qed.

(** The first steps of saveBlocking -- the dial, the first read and the
    trigger -- are the same whatever the context and the number of polls. *)
Lemma saveBlocking_opening_ignores_ctx fuel ctx ctx' addr w :
  since w (snd (saveBlocking 0 ctx' addr w))
  `prefix_of` since w (snd (saveBlocking fuel ctx addr w)).
Proof.
  destruct (saveBlocking 0 ctx' addr w) as [r0 w0] eqn:E0.
  destruct (saveBlocking fuel ctx addr w) as [r w'] eqn:E. cbn [fst snd].
  run_in E0. run_in E.
  destruct (dial_err (env w (pos w))) as [e|]; cbn in E0, E; [by simplify_eq|].
  destruct (resp (env w (S (pos w)))) as [e|prev|]; cbn in E0, E; try by simplify_eq.
  destruct (Err (resp (env w (S (S (pos w)))))) as [e|]; cbn in E0, E; [by simplify_eq|].
  match type of E with
  | context [poll ?f ?c ?a ?p ?t ?w1] =>
      destruct (poll f c a p t w1) as [[pr|] wp] eqn:Ep; cbn in E
  end; apply poll_polled in Ep as (new & Ht & _); cbn in Ht; simplify_eq.
  - erewrite !since_app; [|cbn; rewrite Ht, <- !app_assoc; reflexivity
                          |cbn; rewrite <- !app_assoc; reflexivity].
    cbn. do 3 apply prefix_cons. apply prefix_nil.
  - erewrite !since_app; [|rewrite Ht, <- !app_assoc; reflexivity
                          |cbn; rewrite <- !app_assoc; reflexivity].
    cbn. do 3 apply prefix_cons. apply prefix_nil.
Qed.


(** ** C5 and C6: which errors end the run *)

Lemma passed_returns {ctx t0 addrs new r} :
  passed ctx t0 addrs new r ->
  forall e, r = Returned (Some e) ->
            e = DeadlineExceeded /\ deadline ctx <= endTime t0 new.
Proof.
  induction 1 as [|t0 addr rest new Ha|t0 addr rest new err Ha Hlate
                 |t0 addr rest new err new' r Ha Hearly _ IH]; intros e Hr;
    simplify_eq.
  - unfold saveLog. by rewrite endTime_snoc.
  - unfold saveLog. rewrite endTime_app, endTime_cons. cbn [fst]. eauto.
Qed.

Lemma saving_returns ctx addrs t0 new r :
  saving ctx addrs t0 new r ->
  forall x, r = Returned x ->
            x = Some DeadlineExceeded /\ deadline ctx <= endTime t0 new.
Proof.
  induction 1 as [|t0 new Hp|t0 new e Hp|t0 new t1 Hp|t0 new t1 new' r Hp _ _ IH];
    intros x Hr; simplify_eq.
  - by destruct (passed_returns Hp _ eq_refl) as [-> ?].
  - by rewrite endTime_snoc.
  - rewrite endTime_app, endTime_cons. cbn [fst]. eauto.
Qed.

(** A run over at least one host returns nothing but ctx.Err(), and only
    once the deadline has passed. *)
Lemma do_returns_deadline fuel ctx addrs w x :
  addrs <> [] ->
  fst (do fuel ctx addrs w) = Returned x ->
  x = Some DeadlineExceeded /\ deadline ctx <= now (snd (do fuel ctx addrs w)).
Proof.
  intros Hne. destruct (do fuel ctx addrs w) as [r w'] eqn:E. cbn [fst snd]. intros ->.
  apply do_run in E as (new1 & new2 & _ & Hn & _ & Hs); [|done].
  rewrite Hn, endTime_app. by eapply saving_returns.
Qed.

Lemma savePass_late fuel ctx a rest w e w1 :
  saveBlocking fuel ctx a w = (Returned (Some e), w1) ->
  deadline ctx <= now w1 ->
  savePass fuel ctx (a :: rest) w
  = (Returned (Some DeadlineExceeded), snd (Log (LogErr a e) w1)).
Proof.
  intros E Hlate. cbn [savePass]. unfold bind, Now. rewrite E.
  unfold Log, emit, ctxDone, ctxErr. cbn.
  apply Z.leb_le in Hlate. rewrite Hlate. cbn. by rewrite Hlate.
Qed.

Lemma savePass_early fuel ctx a rest w e w1 :
  saveBlocking fuel ctx a w = (Returned (Some e), w1) ->
  now w1 < deadline ctx ->
  savePass fuel ctx (a :: rest) w
  = savePass fuel ctx rest (snd (Log (LogErr a e) w1)).
Proof.
  intros E Hearly. cbn [savePass]. unfold bind, Now. rewrite E.
  unfold Log, emit, ctxDone, ctxErr. cbn.
  apply Z.leb_gt in Hearly. by rewrite Hearly.
Qed.

(** [main] over at least one host: it ends only by the deadline, which it
    reports with log.Print and a normal return. *)
Lemma main_ends_by_deadline fuel flags fs rnd w addrs x :
  readLines fs (Addresses flags) = (addrs, None) -> addrs <> [] ->
  fst (main fuel flags fs rnd w) = Returned x ->
  x = ExitOK /\
  exists t, last (trace (snd (main fuel flags fs rnd w)))
            = Some (t, ELog (LogDeadline (Deadline (floorDeadline flags)))).
Proof.
  intros Hread Hne. destruct (main fuel flags fs rnd w) as [rm wm] eqn:Em.
  cbn [fst snd]. intros ->. unfold main in Em.
  rewrite floorDeadline_Addresses, Hread in Em.
  destruct (shuffle_nonempty rnd addrs Hne) as (out & Hsh & Hout). rewrite Hsh in Em.
  unfold bind, WithTimeout in Em.
  pose proof (do_returns_deadline fuel
    {| deadline := now w + Deadline (floorDeadline flags) |} out w) as Hdo.
  destruct (do fuel _ out w) as [[err|] w'] eqn:E; cbn [fst snd] in *; [|done].
  destruct (Hdo err Hout eq_refl) as [-> _].
  cbn in Em. destruct (decide (DeadlineExceeded = DeadlineExceeded)); [|done].
  unfold ret in Em. simplify_eq. split; [done|]. exists (now w'). cbn.
  by rewrite last_snoc.
Qed.

(** ** C9: the floor of the deadline *)

Lemma floorDeadline_max flags : Deadline (floorDeadline flags) = Z.max Minute (Deadline flags).
Proof.
  unfold floorDeadline. destruct (Z.ltb_spec (Deadline flags) Minute); cbn [Deadline]; lia.
Qed.

(** C9. The run of [main] is the run of [do] under a context whose
    deadline lies exactly max(1 minute, requested duration) after its
    creation, and [main] reports that duration when the deadline ends the
    run. So a requested duration below one minute (zero and negative values
    included) gives a deadline of exactly one minute, and a requested
    duration of at least one minute is used unchanged. *)
Theorem deadline_floored_to_one_minute fuel flags fs rnd w addrs :
  let d := Z.max Minute (Deadline flags) in
  let ctx := {| deadline := now w + d |} in
  readLines fs (Addresses flags) = (addrs, None) -> addrs <> [] ->
  (Deadline flags < Minute -> d = Minute /\ Deadline (floorDeadline flags) = Minute) /\
  (Minute <= Deadline flags -> d = Deadline flags /\ floorDeadline flags = flags) /\
  WithTimeout (Deadline (floorDeadline flags)) w = (Returned ctx, w) /\
  exists order,
    shuffle rnd addrs = Some order /\
    main fuel flags fs rnd w
    = match do fuel ctx order w with
      | (Returned _, w') => (Returned ExitOK, snd (Log (LogDeadline d) w'))
      | (Running, w') => (Running, w')
      end.
Proof.
  cbv zeta. intros Hread Hne. split_and!.
  - intros Hlt. split; [lia|]. rewrite floorDeadline_max. lia.
  - intros Hge. split; [lia|]. unfold floorDeadline.
    by destruct (Z.ltb_spec (Deadline flags) Minute); [lia|].
  - unfold WithTimeout. by rewrite floorDeadline_max.
  - destruct (shuffle_nonempty rnd addrs Hne) as (order & Hsh & Hord).
    exists order. split; [done|]. unfold main.
    rewrite floorDeadline_Addresses, Hread, Hsh, floorDeadline_max.
    unfold bind at 1, WithTimeout. unfold bind.
    pose proof (do_returns_deadline fuel
      {| deadline := now w + Z.max Minute (Deadline flags) |} order w) as Hdo.
    destruct (do fuel _ order w) as [[x|] w'] eqn:E; cbn [fst snd] in *; [|done].
    destruct (Hdo x Hord eq_refl) as [-> _]. cbn.
    by destruct (decide (DeadlineExceeded = DeadlineExceeded)).
Qed.

(** ** The run ends *)

Lemma advances_ret {A} (a : A) : advances (ret a).
Proof. intros w. cbn. split_and!; first [done | lia]. Qed.

Lemma advances_running {A} : advances (@running A).
Proof. intros w. cbn. split_and!; first [done | lia]. Qed.

Lemma advances_bind {A B} (m : M A) (k : A -> M B) :
  advances m -> (forall a, advances (k a)) -> advances (bind m k).
Proof.
  intros Hm Hk w. unfold bind. specialize (Hm w).
  destruct (m w) as [[a|] w1]; cbn [snd] in *; [|done].
  destruct (Hk a w1) as (-> & ? & ?). split_and!; [tauto|lia..].
Qed.

Lemma advances_emit e : advances (emit e).
Proof. intros w. cbn. split_and!; first [done | lia]. Qed.

Lemma advances_next timeout : advances (next timeout).
Proof. intros w. cbn. split_and!; first [done | lia]. Qed.

Lemma advances_Now : advances Now.
Proof. intros w. cbn. split_and!; first [done | lia]. Qed.

Lemma advances_ctxErr ctx : advances (ctxErr ctx).
Proof. intros w. cbn. split_and!; first [done | lia]. Qed.

Lemma advances_ctxDone ctx : advances (ctxDone ctx).
Proof. intros w. cbn. split_and!; first [done | lia]. Qed.

Lemma advances_NewTicker d : advances (NewTicker d).
Proof. intros w. cbn. split_and!; first [done | lia]. Qed.

Lemma advances_received t : advances (received t).
Proof. intros w. cbn. split_and!; first [done | lia]. Qed.

Lemma advances_select ctx c due : advances (select ctx c due).
Proof.
  intros w. destruct (select_cases ctx c due w) as (got & t1 & -> & Hcase). cbn.
  split_and!; [done|lia|]. destruct Hcase as [(_ & -> & _)|(_ & -> & _)]; lia.
Qed.

Lemma advances_DialTimeout addr timeout : advances (DialTimeout addr timeout).
Proof.
  apply advances_bind; [apply advances_next|]. intros a.
  apply advances_bind; [apply advances_emit|]. intros _. apply advances_ret.
Qed.

Lemma advances_Cmd addr timeout args : advances (Cmd addr timeout args).
Proof.
  apply advances_bind; [apply advances_next|]. intros a.
  apply advances_bind; [apply advances_emit|]. intros _. apply advances_ret.
Qed.

Lemma advances_poll fuel ctx addr prev t : advances (poll fuel ctx addr prev t).
Proof.
  revert t. induction fuel as [|fuel IH]; intros t; cbn [poll]; [apply advances_running|].
  apply advances_bind; [apply advances_select|]. intros c.
  assert (Hread : advances
            (t' <- received t ;;
             r <- Cmd addr (15 * Second) ["LASTSAVE"] ;;
             let (cur, err) := Int64 r in
             match err with
             | Some e => ret (Some e)
             | None => if negb (cur =? prev) then ret None
                       else poll fuel ctx addr prev t'
             end)).
  { apply advances_bind; [apply advances_received|]. intros t'.
    apply advances_bind; [apply advances_Cmd|]. intros r.
    destruct (Int64 r) as [cur [e|]]; [apply advances_ret|].
    destruct (negb (cur =? prev)); [apply advances_ret | apply IH]. }
  destruct c; [apply advances_ctxErr | exact Hread..].
Qed.

Lemma advances_saveBlocking fuel ctx addr : advances (saveBlocking fuel ctx addr).
Proof.
  apply advances_bind; [apply advances_DialTimeout|]. intros [e|]; [apply advances_ret|].
  apply advances_bind.
  - apply advances_bind; [apply advances_Cmd|]. intros r.
    destruct (Int64 r) as [prev [e|]]; [apply advances_ret|].
    apply advances_bind; [apply advances_Cmd|]. intros b.
    destruct (Err b); [apply advances_ret|].
    apply advances_bind; [apply advances_NewTicker|]. intros t. apply advances_poll.
  - intros out. apply advances_bind; [apply advances_emit|]. intros _. apply advances_ret.
Qed.

Lemma advances_disablePersistence addr : advances (disablePersistence addr).
Proof.
  apply advances_bind; [apply advances_DialTimeout|]. intros [e|]; [apply advances_ret|].
  apply advances_bind; [apply advances_Cmd|]. intros r.
  apply advances_bind; [apply advances_emit|]. intros _. apply advances_ret.
Qed.

Lemma advances_disableAll addrs : advances (disableAll addrs).
Proof.
  induction addrs as [|addr rest IH]; cbn [disableAll]; [apply advances_ret|].
  apply advances_bind; [apply advances_disablePersistence|]. intros err.
  apply advances_bind; [|done]. destruct err; [apply advances_emit | apply advances_ret].
Qed.

Lemma advances_at {A} {m : M A} {w r w'} :
  advances m -> m w = (r, w') ->
  env w' = env w /\ (pos w <= pos w')%nat /\ now w <= now w'.
Proof. intros Hm E. specialize (Hm w). by rewrite E in Hm. Qed.

Lemma enough_later ctx N w w' :
  (pos w <= pos w')%nat -> now w <= now w' -> (enough ctx N w' <= enough ctx N w)%nat.
Proof. unfold enough. lia. Qed.

(** The polling loop returns: each poll uses up a tick that is due before
    the deadline, or one of the times that the environment prefers the
    tick. *)
Lemma poll_returns_aux ctx addr prev N n :
  forall a b w t,
    (a + b <= n)%nat ->
    (forall i, (N <= i)%nat -> ctx_first (env w i) = true) ->
    0 < period t ->
    deadline ctx - due t < Z.of_nat a * period t ->
    (N - pos w <= b)%nat ->
    exists r w', poll (S n) ctx addr prev t w = (Returned r, w').
Proof.
  induction n as [|n IH]; intros a b w t Hab Hfair Hper Ha Hb; cbn [poll];
    destruct (select_cases ctx TickerC (due t) w) as (got & t1 & Hsel & Hcase);
    rewrite (bind_eq Hsel);
    (destruct Hcase as [(-> & _)|(-> & Ht1 & Hle & Htie)]; [by eexists _, _|]);
    rewrite (bind_eq (received_eq _ _)), (bind_eq (Cmd_eq _ _ _ _)); cbn [env pos now];
    (destruct (Int64 _) as [cur [e|]]; [by eexists _, _|]);
    (destruct (negb (cur =? prev)); [by eexists _, _|]).
  - exfalso. assert (a = 0%nat) as -> by lia. assert (b = 0%nat) as -> by lia.
    assert (Hn : (N <= pos w)%nat) by lia. pose proof (Hfair _ Hn) as Hf.
    cbn in Ha. rewrite Htie in Hf by lia. done.
  - destruct (Z_lt_le_dec t1 (Z.max (now w) (deadline ctx))) as [Hstrict|Hge].
    + destruct a as [|a]; [exfalso; cbn in Ha; lia|].
      rewrite Nat2Z.inj_succ in Ha.
      pose proof (ticked_due t t1 ltac:(lia) ltac:(lia)).
      apply (IH a b); change (period (ticked t t1)) with (period t); cbn [env pos];
        first [done | lia].
    + assert (Hlt : (pos w < N)%nat).
      { destruct (le_lt_dec N (pos w)) as [Hn|Hn]; [|done].
        rewrite (Hfair _ Hn) in Htie. by discriminate Htie. }
      destruct b as [|b]; [lia|].
      pose proof (ticked_due t t1 ltac:(lia) ltac:(lia)).
      apply (IH a b); change (period (ticked t t1)) with (period t); cbn [env pos];
        first [done | lia].
Qed.

Lemma poll_returns ctx addr prev N fuel w :
  (forall i, (N <= i)%nat -> ctx_first (env w i) = true) ->
  (enough ctx N w <= fuel)%nat ->
  exists r w',
    poll fuel ctx addr prev {| period := 10 * Second; due := now w + 10 * Second |} w
    = (Returned r, w').
Proof.
  intros Hfair Hfuel. unfold enough in Hfuel. destruct fuel as [|n]; [lia|].
  apply (poll_returns_aux ctx addr prev N n (Z.to_nat (deadline ctx - now w)) (N - pos w));
    cbn [period due]; try done; try lia; unfold Second, Nanosecond; lia.
Qed.

Lemma saveBlocking_returns ctx N addr fuel w :
  (forall i, (N <= i)%nat -> ctx_first (env w i) = true) ->
  (enough ctx N w <= fuel)%nat ->
  exists r w', saveBlocking fuel ctx addr w = (Returned r, w').
Proof.
  intros Hfair Hfuel.
  destruct (saveBlocking fuel ctx addr w) as [[r|] w'] eqn:E; [by eexists _, _|].
  exfalso. run_in E.
  destruct (dial_err (env w (pos w))); cbn in E; [done|].
  destruct (resp (env w (S (pos w)))); cbn in E; try done.
  destruct (Err (resp (env w (S (S (pos w)))))); cbn in E; [done|].
  match type of E with
  | context [poll ?f ?c ?a ?p ?t ?w1] =>
      destruct (poll_returns c a p N f w1) as (r & w2 & Hp);
        [exact Hfair | etransitivity; [apply enough_later|exact Hfuel]; cbn; lia|]
  end.
  cbn in Hp. rewrite Hp in E. done.
Qed.

Lemma savePass_cons fuel ctx addr rest w err w1 :
  saveBlocking fuel ctx addr w = (Returned err, w1) ->
  savePass fuel ctx (addr :: rest) w
  = let w2 := {| env := env w1; pos := pos w1; now := now w1;
                 trace := trace w1 ++ [saveLog addr (now w) (now w1) err] |} in
    if deadline ctx <=? now w1 then (Returned (Some DeadlineExceeded), w2)
    else savePass fuel ctx rest w2.
Proof.
  intros E. cbn [savePass]. unfold bind at 1, Now. unfold bind at 1. rewrite E.
  destruct err; unfold bind, Log, emit, Now, ctxDone, ctxErr; cbn;
    destruct (deadline ctx <=? now w1) eqn:Hd; cbn; rewrite ?Hd; reflexivity.
Qed.

Lemma savePass_returns ctx N fuel addrs :
  forall w,
    (forall i, (N <= i)%nat -> ctx_first (env w i) = true) ->
    (enough ctx N w <= fuel)%nat ->
    exists r w', savePass fuel ctx addrs w = (Returned r, w').
Proof.
  induction addrs as [|addr rest IH]; intros w Hfair Hfuel; [by eexists _, _|].
  destruct (saveBlocking_returns ctx N addr fuel w Hfair Hfuel) as (err & w1 & E1).
  rewrite (savePass_cons _ _ _ _ _ _ _ E1). cbv zeta.
  destruct (advances_at (advances_saveBlocking _ _ _) E1) as (Henv & Hpos & Hnow).
  destruct (deadline ctx <=? now w1); [by eexists _, _|].
  apply IH; cbn [env pos now].
  - intros i Hi. rewrite Henv. by apply Hfair.
  - etransitivity; [apply (enough_later ctx N w)|exact Hfuel]; cbn; lia.
Qed.

Lemma advances_savePass fuel ctx addrs : advances (savePass fuel ctx addrs).
Proof.
  induction addrs as [|addr rest IH]; cbn [savePass]; [apply advances_ret|].
  apply advances_bind; [apply advances_Now|]. intros begin.
  apply advances_bind; [apply advances_saveBlocking|]. intros err.
  apply advances_bind.
  - destruct err; [apply advances_emit|].
    apply advances_bind; [apply advances_Now|]. intros t. apply advances_emit.
  - intros _. apply advances_bind; [apply advances_ctxDone|].
    intros [|]; [apply advances_ctxErr | done].
Qed.

(** The loop of passes returns: each pause takes 10 of the seconds that
    are left before the deadline. *)
Lemma passes_returns ctx N addrs c :
  forall w fuel,
    (forall i, (N <= i)%nat -> ctx_first (env w i) = true) ->
    deadline ctx - now w <= Z.of_nat c ->
    (enough ctx N w + c <= fuel)%nat ->
    exists r w', passes (S fuel) ctx addrs w = (Returned r, w').
Proof.
  induction c as [|c IH]; intros w fuel Hfair Hc Hfuel; cbn [passes];
    (destruct (savePass_returns ctx N fuel addrs w Hfair) as (ro & w1 & E1); [lia|]);
    rewrite (bind_eq E1);
    destruct (advances_at (advances_savePass _ _ _) E1) as (Henv & Hpos & Hnow);
    (destruct ro as [e|]; [by eexists _, _|]);
    unfold bind at 1, Now;
    destruct (select_cases ctx TimeAfter (now w1 + 10 * Second) w1)
      as (got & t1 & Hsel & Hcase);
    rewrite (bind_eq Hsel);
    (destruct Hcase as [(-> & _)|(-> & Ht1 & Hle & _)]; [by eexists _, _|]).
  - exfalso. pose proof Second_pos. lia.
  - destruct fuel as [|fuel]; [unfold enough in Hfuel; lia|].
    apply IH; cbn [env pos now].
    + intros i Hi. rewrite Henv. by apply Hfair.
    + pose proof Second_pos. unfold Second, Nanosecond in *. lia.
    + assert (enough ctx N {| env := env w1; pos := S (pos w1); now := t1;
                              trace := trace w1 ++ [(t1, ERecv TimeAfter)] |}
              <= enough ctx N w)%nat; [|lia].
      apply enough_later; cbn; lia.
Qed.

(** With at least one host and a fair environment, [do] returns once its
    loops are given enough iterations, and what it returns is ctx.Err(). *)
Lemma do_ends ctx addrs w :
  addrs <> [] -> fair (env w) ->
  exists fuel0, forall fuel,
    (fuel0 <= fuel)%nat -> fst (do fuel ctx addrs w) = Returned (Some DeadlineExceeded).
Proof.
  intros Hne [N Hfair].
  exists (S (enough ctx N w + Z.to_nat (deadline ctx - now w))). intros fuel Hfuel.
  destruct fuel as [|fuel]; [lia|].
  destruct (disableAll addrs w) as [r1 w1] eqn:E1.
  destruct (advances_at (advances_disableAll _) E1) as (Henv & Hpos & Hnow).
  destruct (passes_returns ctx N addrs (Z.to_nat (deadline ctx - now w)) w1 fuel)
    as (r & w' & E).
  - intros i Hi. rewrite Henv. by apply Hfair.
  - lia.
  - pose proof (enough_later ctx N w w1 Hpos Hnow). lia.
  - pose proof (do_returns_deadline (S fuel) ctx addrs w r Hne) as Hr.
    rewrite (do_passes _ _ _ _ Hne), E1 in Hr |- *. cbn [snd] in *.
    rewrite E in Hr |- *. cbn [fst] in *. by destruct (Hr eq_refl) as [-> _].
Qed.

Lemma poll_deadline_first fuel ctx a prev t w :
  Z.max (now w) (deadline ctx) < Z.max (now w) (due t) ->
  poll (S fuel) ctx a prev t w
  = (Returned (Some DeadlineExceeded),
     {| env := env w; pos := S (pos w); now := Z.max (now w) (deadline ctx);
        trace := trace w ++ [(Z.max (now w) (deadline ctx), ERecv CtxDone)] |}).
Proof.
  intros Hfirst. cbn [poll].
  destruct (select_cases ctx TickerC (due t) w) as (got & t1 & Hsel & Hcase).
  rewrite (bind_eq Hsel).
  destruct Hcase as [(-> & -> & _)|(-> & -> & Hle & _)]; [|lia].
  unfold ctxErr. cbn [now]. by rewrite deadline_reached.
Qed.

Lemma saveBlocking_done fuel ctx a w l1 t l2 :
  since w (snd (saveBlocking fuel ctx a w)) = l1 ++ (t, ERecv CtxDone) :: l2 ->
  fst (saveBlocking fuel ctx a w) = Returned (Some DeadlineExceeded) /\
  l2 = [(t, EClose a)].
Proof.
  destruct (saveBlocking fuel ctx a w) as [r w'] eqn:E. cbn [fst snd].
  apply saveBlocking_attempt in E as (new & Ht & _ & Ha). rewrite (since_app Ht).
  intros E. by destruct (attempt_done Ha E) as (-> & -> & _).
Qed.


Lemma disablePersistence_returns addr w :
  exists err, fst (disablePersistence addr w) = Returned err.
Proof.
  destruct (disablePersistence addr w) as [r w1] eqn:E.
  apply disablePersistence_toggled in E as (_ & err & -> & _). by exists err.
Qed.

Lemma disableAll_cons a rest w :
  disableAll (a :: rest) w
  = disableAll rest
      match fst (disablePersistence a w) with
      | Returned (Some e) => snd (Log (LogErr a e) (snd (disablePersistence a w)))
      | _ => snd (disablePersistence a w)
      end.
Proof.
  cbn [disableAll]. unfold bind at 1.
  destruct (disablePersistence_returns a w) as [err Herr].
  destruct (disablePersistence a w) as [r w1]. cbn [fst snd] in *. subst r.
  unfold bind. by destruct err.
Qed.

Lemma savePass_cons_trace fuel ctx a rest w :
  exists more,
    trace (snd (savePass fuel ctx (a :: rest) w))
    = trace (snd (saveBlocking fuel ctx a w)) ++ more.
Proof.
  cbn [savePass]. unfold bind at 1, Now. unfold bind at 1.
  destruct (saveBlocking fuel ctx a w) as [[err|] w1]; cbn [snd].
  2: { exists []. by rewrite app_nil_r. }
  match goal with |- context [bind ?m ?k w1] =>
    assert (exists w2 l, m w1 = (Returned tt, w2) /\ trace w2 = trace w1 ++ l)
      as (w2 & l & Hm & Hl) by (destruct err; by eexists _, _);
    unfold bind at 1; rewrite Hm end.
  unfold bind, ctxDone, ctxErr. destruct (deadline ctx <=? now w2).
  - exists l. done.
  - destruct (savePass fuel ctx rest w2) as [r w3] eqn:E.
    apply savePass_passed in E as (new & Ht & _). exists (l ++ new).
    cbn. by rewrite Ht, Hl, app_assoc.
Qed.

Lemma passes_S_trace fuel ctx addrs w :
  exists more,
    trace (snd (passes (S fuel) ctx addrs w))
    = trace (snd (savePass fuel ctx addrs w)) ++ more.
Proof.
  destruct (passes (S fuel) ctx addrs w) as [r w'] eqn:E. cbn [passes] in E.
  unfold bind at 1 in E.
  destruct (savePass fuel ctx addrs w) as [[[e|]|] w1]; cbn [snd].
  1,3: run_in E; simplify_eq; exists []; by rewrite app_nil_r.
  run_in E.
  destruct (select_cases ctx TimeAfter (now w1 + 10 * Second) w1)
    as (got & t1 & Hsel & Hcase).
  rewrite Hsel in E. destruct Hcase as [(-> & _)|(-> & _)]; cbn in E.
  - simplify_eq. by eexists.
  - apply passes_saving in E as (new & Ht & _). cbn in Ht. rewrite Ht.
    eexists. by rewrite <- app_assoc.
Qed.

Lemma do_starts_saving fuel ctx a rest w :
  let w1 := snd (disableAll (a :: rest) w) in
  since w1 (snd (saveBlocking fuel ctx a w1))
  `prefix_of` since w1 (snd (do (S fuel) ctx (a :: rest) w)).
Proof.
  cbv zeta. rewrite do_passes by done. set (w1 := (disableAll (a :: rest) w).2).
  destruct (passes_S_trace fuel ctx (a :: rest) w1) as [m2 H2].
  destruct (savePass_cons_trace fuel ctx a rest w1) as [m1 H1].
  destruct (saveBlocking fuel ctx a w1) as [r2 w2] eqn:E. cbn [snd] in *.
  apply saveBlocking_attempt in E as (new & Ht & _).
  rewrite (since_app Ht).
  erewrite since_app; [|by rewrite H2, H1, Ht, <- !app_assoc].
  by apply prefix_app_r.
Qed.

Lemma saveBlocking_triggers fuel ctx a w n :
  dial_err (env w (pos w)) = None -> resp (env w (S (pos w))) = RInt n ->
  exists t rb, (t, ECmd a ["BGSAVE"] rb) ∈ since w (snd (saveBlocking fuel ctx a w)).
Proof.
  intros Hdial Hread. destruct (saveBlocking fuel ctx a w) as [r w'] eqn:E. cbn [snd].
  run_in E. rewrite Hdial in E. cbn in E. rewrite Hread in E. cbn in E.
  destruct (Err (resp (env w (S (S (pos w)))))) as [e|]; cbn in E.
  { simplify_eq. erewrite since_app; [|cbn; rewrite <- !app_assoc; reflexivity].
    eexists _, _. do 2 apply list_elem_of_further. apply list_elem_of_here. }
  match type of E with
  | context [poll ?f ?c ?a ?p ?t ?w1] =>
      destruct (poll f c a p t w1) as [[pr|] wp] eqn:Ep; cbn in E
  end; apply poll_polled in Ep as (new & Ht & _); cbn in Ht; simplify_eq.
  - erewrite since_app; [|cbn; rewrite Ht, <- !app_assoc; reflexivity].
    eexists _, _. do 2 apply list_elem_of_further. apply list_elem_of_here.
  - erewrite since_app; [|rewrite Ht, <- !app_assoc; reflexivity].
    eexists _, _. do 2 apply list_elem_of_further. apply list_elem_of_here.
Qed.

Lemma dialsOf_app timeout l1 l2 :
  dialsOf timeout (l1 ++ l2) = dialsOf timeout l1 ++ dialsOf timeout l2.
Proof. apply omap_app. Qed.

Lemma toggled_dials {addr t0 new err} :
  toggled addr t0 new err -> dialsOf (5 * Second) new = [addr].
Proof. destruct 1; cbn; unfold dialOf; cbn; by rewrite Z.eqb_refl. Qed.

Lemma disabled_dials t0 addrs new :
  disabled t0 addrs new -> dialsOf (5 * Second) new = addrs.
Proof.
  induction 1 as [|t0 addr rest new err new' Ht _ IH]; [done|].
  rewrite !dialsOf_app, (toggled_dials Ht), IH. by destruct err.
Qed.

Lemma polled_dials ctx addr prev t0 t new r timeout :
  polled ctx addr prev t0 t new r -> dialsOf timeout new = [].
Proof. induction 1; done. Qed.

Lemma attempt_dials {ctx addr t0 new r} :
  attempt ctx addr t0 new r -> dialsOf (15 * Second) new = [addr].
Proof.
  destruct 1; cbn; unfold dialOf; cbn; rewrite Z.eqb_refl; try done.
  - f_equal. by eapply polled_dials.
  - f_equal. change (dialsOf (15 * Second) (new ++ [(endTime t3 new, EClose addr)]) = []).
    rewrite dialsOf_app. by erewrite polled_dials.
Qed.

Lemma passed_dials ctx t0 addrs new r :
  passed ctx t0 addrs new r -> r = Returned None -> dialsOf (15 * Second) new = addrs.
Proof.
  induction 1 as [|t0 addr rest new Ha|t0 addr rest new err Ha Hlate
                 |t0 addr rest new err new' r Ha Hearly _ IH]; intros Hr; try done.
  rewrite dialsOf_app, (attempt_dials Ha).
  unfold dialsOf in *. cbn. by rewrite IH.
Qed.


(** * The runs of the examples *)

(** The typical run, event by event. *)
Example typicalTrace_events :
  typicalTrace =
  [ (1 * ms, EDial hostA (5 * Second) None);
    (2 * ms, ECmd hostA ["CONFIG"; "SET"; "SAVE"; ""] ROther);
    (2 * ms, EClose hostA);
    (3 * ms, EDial hostB (5 * Second) refused);
    (3 * ms, ELog (LogErr hostB (NetError "connection refused")));
    (4 * ms, EDial hostA (15 * Second) None);
    (5 * ms, ECmd hostA ["LASTSAVE"] (RInt 100));
    (6 * ms, ECmd hostA ["BGSAVE"] ROther);
    (10006 * ms, ERecv TickerC);
    (10007 * ms, ECmd hostA ["LASTSAVE"] (RInt 101));
    (10007 * ms, EClose hostA);
    (10007 * ms, ELog (LogSaved hostA (10004 * ms)));
    (10008 * ms, EDial hostB (15 * Second) None);
    (10009 * ms, ECmd hostB ["LASTSAVE"] (RInt 200));
    (10010 * ms, ECmd hostB ["BGSAVE"] ROther);
    (20010 * ms, ERecv TickerC);
    (20011 * ms, ECmd hostB ["LASTSAVE"] (RInt 200));
    (30010 * ms, ERecv TickerC);
    (30011 * ms, ECmd hostB ["LASTSAVE"] (RInt 205));
    (30011 * ms, EClose hostB);
    (30011 * ms, ELog (LogSaved hostB (20004 * ms)));
    (40011 * ms, ERecv TimeAfter);
    (40012 * ms, EDial hostA (15 * Second) refused);
    (40012 * ms, ELog (LogErr hostA (NetError "connection refused")));
    (40013 * ms, EDial hostB (15 * Second) None);
    (40014 * ms, ECmd hostB ["LASTSAVE"] (RInt 205));
    (40015 * ms, ECmd hostB ["BGSAVE"] busy);
    (40015 * ms, EClose hostB);
    (40015 * ms,
     ELog (LogErr hostB (NetError "ERR Background save already in progress")));
    (50015 * ms, ERecv TimeAfter);
    (50016 * ms, EDial hostA (15 * Second) None);
    (50017 * ms, ECmd hostA ["LASTSAVE"] (RInt 101));
    (50018 * ms, ECmd hostA ["BGSAVE"] ROther);
    (60000 * ms, ERecv CtxDone);
    (60000 * ms, EClose hostA);
    (60000 * ms, ELog (LogErr hostA DeadlineExceeded)) ].
Proof. vm_compute. reflexivity. Qed.

(** The scenario of three hosts whose marker reads 100 before the trigger
    and 100, 101, 100 at the first poll: the second host has saved at its
    first poll, the other two need a second poll. *)
Example first_poll_same_then_changed :
  fst (saveBlocking 1 ctx60 hostA
         (start [dialed ms None; replied ms (RInt 100); replied ms ROther;
                 fired 0; replied ms (RInt 100); fired 0; replied ms (RInt 102)]))
  = Running /\
  fst (saveBlocking 2 ctx60 hostA
         (start [dialed ms None; replied ms (RInt 100); replied ms ROther;
                 fired 0; replied ms (RInt 100); fired 0; replied ms (RInt 102)]))
  = Returned None.
Proof. split; vm_compute; reflexivity. Qed.

Example first_poll_changed :
  fst (saveBlocking 1 ctx60 hostB
         (start [dialed ms None; replied ms (RInt 100); replied ms ROther;
                 fired 0; replied ms (RInt 101)]))
  = Returned None.
Proof. vm_compute. reflexivity. Qed.

(** A marker that goes down counts as a change. *)
Example marker_reset_is_a_change :
  fst (saveBlocking 1 ctx60 hostA
         (start [dialed ms None; replied ms (RInt 100); replied ms ROther;
                 fired 0; replied ms (RInt 0)]))
  = Returned None.
Proof. vm_compute. reflexivity. Qed.

(** A host that answers CONFIG SET with an error is sent BGSAVE all the same. *)
Example toggle_failure_does_not_block_save :
  trace (snd (do 1 ctx60 [hostA]
                (start [dialed ms None; replied ms (RErr (NetError "ERR unknown command"));
                        dialed ms None; replied ms (RInt 100); replied ms ROther])))
  = [ (1 * ms, EDial hostA (5 * Second) None);
      (2 * ms, ECmd hostA ["CONFIG"; "SET"; "SAVE"; ""] (RErr (NetError "ERR unknown command")));
      (2 * ms, EClose hostA);
      (2 * ms, ELog (LogErr hostA (NetError "ERR unknown command")));
      (3 * ms, EDial hostA (15 * Second) None);
      (4 * ms, ECmd hostA ["LASTSAVE"] (RInt 100));
      (5 * ms, ECmd hostA ["BGSAVE"] ROther) ].
Proof. vm_compute. reflexivity. Qed.

(** A ticker does not keep the ticks that its receiver is late for. The
    ticker of this call starts at 5 ms; the ticks of 20.005 s, 30.005 s and
    40.005 s wait in the channel for the end of a read and are taken at
    once; the tick of 50.005 s finds the one of 40.005 s still there and is
    dropped, so that after the read that ends at 52.006 s the next tick
    would be that of 60.005 s, and the deadline comes first. *)
Example late_tick_is_dropped :
  List.filter isRecv (trace (snd (do 7 ctx60 [hostA] (start laggingReads))))
  = [ (10005 * ms, ERecv TickerC); (24005 * ms, ERecv TickerC);
      (38005 * ms, ERecv TickerC); (52005 * ms, ERecv TickerC);
      (60000 * ms, ERecv CtxDone) ].
Proof. vm_compute. reflexivity. Qed.

(** A requested deadline of 0 gives a run of one minute. *)
Example deadline_zero :
  Deadline (floorDeadline {| Deadline := 0; Addresses := "hosts" |}) = Minute.
Proof. reflexivity. Qed.

(** * The theorems on these runs, and the counterexamples *)


(** C2, on the typical run: the first save trigger, sent to A. *)
Lemma do_one_attempt_at_a_time_witness :
  (length (conns [] (take 7 typicalTrace ++ [firstTrigger])) <= 1)%nat /\
  (isTrigger firstTrigger = true ->
   exists b r, snd firstTrigger = ECmd b ["BGSAVE"] r /\
               conns [] (take 7 typicalTrace) = [b]) /\
  (isDial firstTrigger = true -> conns [] (take 7 typicalTrace) = []).
Proof.
  apply (do_one_attempt_at_a_time 6 ctx60 [hostA; hostB] (start typicalRun)
           (take 7 typicalTrace) firstTrigger (drop 8 typicalTrace)).
  vm_compute. reflexivity.
Defined.


(** C10, on a save that has ended at the first poll: the trigger is answered
    at 3 ms, the read that sees the change comes after the tick of 10.003 s. *)
Lemma saveBlocking_reads_only_after_tick_witness :
  let out := saveBlocking 1 ctx60 hostA (start quickSave) in
  let new := since (start quickSave) (snd out) in
  (forall l3 rd l4,
     afterTrigger new = l3 ++ rd :: l4 -> isRead rd = true ->
     exists l5 tk, l3 = l5 ++ [(tk, ERecv TickerC)] /\
                   3 * ms + 10 * Second <= tk /\ tk <= fst rd) /\
  (fst out = Returned None ->
   (exists tk, (tk, ERecv TickerC) ∈ afterTrigger new /\ 3 * ms + 10 * Second <= tk) /\
   3 * ms + 10 * Second <= now (snd out)).
Proof.
  apply (saveBlocking_reads_only_after_tick 1 ctx60 hostA (start quickSave) (3 * ms)).
  vm_compute. reflexivity.
Defined.




(** The scripted environments are fair. *)
Example script_fair l : fair (script l).
Proof.
  exists (length l). intros i Hi. unfold script. by rewrite nth_overflow.
Qed.

(** So the typical run ends, whatever the bound on its loops from some
    bound on. *)
Example typical_run_ends :
  exists fuel0, forall fuel,
    (fuel0 <= fuel)%nat ->
    fst (do fuel ctx60 [hostA; hostB] (start typicalRun)) = Returned (Some DeadlineExceeded).
Proof. apply do_ends; [done | apply script_fair]. Qed.


(** C9, on the typical run started by [main] with a requested deadline of
    0: the context has its deadline at 60 s, and the run ends there. *)
Lemma deadline_floored_to_one_minute_witness :
  let flags := {| Deadline := 0; Addresses := "hosts" |} in
  let w := start typicalRun in
  let d := Z.max Minute (Deadline flags) in
  let ctx := {| deadline := now w + d |} in
  (Deadline flags < Minute -> d = Minute /\ Deadline (floorDeadline flags) = Minute) /\
  (Minute <= Deadline flags -> d = Deadline flags /\ floorDeadline flags = flags) /\
  WithTimeout (Deadline (floorDeadline flags)) w = (Returned ctx, w) /\
  exists order,
    shuffle (fun k => k) [hostA; hostB] = Some order /\
    main 6 flags plainDisk (fun k => k) w
    = match do 6 ctx order w with
      | (Returned _, w') => (Returned ExitOK, snd (Log (LogDeadline d) w'))
      | (Running, w') => (Running, w')
      end.
Proof.
  apply (deadline_floored_to_one_minute 6 {| Deadline := 0; Addresses := "hosts" |}
           plainDisk (fun k => k) (start typicalRun) [hostA; hostB]).
  - reflexivity.
  - discriminate.
Defined.

(** The same hosts and answers under a requested deadline of 0 and of two
    hours: the first run has ended at 60 s, the second is still going on
    after that time. *)
Example requested_deadline_is_used :
  main 6 {| Deadline := 0; Addresses := "hosts" |} plainDisk (fun k => k) (start typicalRun)
  = (Returned ExitOK,
     snd (Log (LogDeadline Minute) (snd (do 6 ctx60 [hostA; hostB] (start typicalRun))))) /\
  now (snd (do 6 ctx60 [hostA; hostB] (start typicalRun))) = Minute /\
  fst (main 6 {| Deadline := 2 * Hour; Addresses := "hosts" |} plainDisk (fun k => k)
         (start typicalRun)) = Running /\
  Minute < now (snd (main 6 {| Deadline := 2 * Hour; Addresses := "hosts" |} plainDisk
                       (fun k => k) (start typicalRun))).
Proof. split_and!; vm_compute; reflexivity. Qed.

(** C7, on the file of two hosts and two blank lines. *)
Lemma readLines_trims_and_keeps_every_line_witness :
  readLines disk "hosts" = (map TrimSpace (scanLines hostsFile ""), None) /\
  length (fst (readLines disk "hosts")) = length (scanLines hostsFile "") /\
  (forall l, l ∈ scanLines hostsFile "" -> blank l = true ->
             "" ∈ fst (readLines disk "hosts")) /\
  (forall fuel ctx w,
     do fuel ctx [] w = (Returned (Some (ErrorString "empty addresses")), w)) /\
  (forall fuel flags rnd w,
     Addresses flags = "hosts" -> scanLines hostsFile "" = [] -> @None error = None ->
     main fuel flags disk rnd w
     = (Returned ExitFatal, snd (Log (LogFatal (ErrorString "empty addresses")) w))).
Proof.
  apply (readLines_trims_and_keeps_every_line disk "hosts" hostsFile None).
  reflexivity.
Defined.

(** C7 fails as stated: the two blank lines of the file are two hosts of
    the list, with the empty address; and a file of blank lines only gives a
    list that is not empty, so that [do] goes on to dial the empty address. *)
Lemma blank_lines_become_hosts :
  readLines disk "hosts" = ([hostA; ""; ""; hostB], None) /\
  readLines disk "blank" = ([""; ""], None) /\
  do 0 ctx60 [""; ""] (start [dialed ms refused; dialed ms refused])
  = (Running,
     {| env := script [dialed ms refused; dialed ms refused]; pos := 2; now := 2 * ms;
        trace := [ (1 * ms, EDial "" (5 * Second) refused);
                   (1 * ms, ELog (LogErr "" (NetError "connection refused")));
                   (2 * ms, EDial "" (5 * Second) refused);
                   (2 * ms, ELog (LogErr "" (NetError "connection refused"))) ] |}).
Proof. split_and!; vm_compute; reflexivity. Qed.

(** An empty file, for comparison: no line, no host, and [main] ends by
    log.Fatal without any network step. *)
Example empty_file_is_fatal :
  readLines disk "empty" = ([], None) /\
  forall rnd,
    main 6 {| Deadline := Deadline defaultArgs; Addresses := "empty" |} disk rnd (start [])
    = (Returned ExitFatal,
       {| env := script []; pos := 0; now := 0;
          trace := [(0, ELog (LogFatal (ErrorString "empty addresses")))] |}).
Proof. split; [|intros rnd]; vm_compute; reflexivity. Qed.

(** * Further properties of the code *)

(** ** Counting, and the order of times *)

Lemma count_app p l1 l2 : count p (l1 ++ l2) = (count p l1 + count p l2)%nat.
Proof. unfold count. by rewrite filter_app, length_app. Qed.

Lemma count_cons p e l :
  count p (e :: l) = ((if p e then 1 else 0) + count p l)%nat.
Proof.
  unfold count. rewrite filter_cons. destruct (p e) eqn:Hp.
  - by rewrite decide_True.
  - by rewrite decide_False by congruence.
Qed.

Lemma count_zero p l : Forall (fun e => p e = false) l -> count p l = 0%nat.
Proof.
  induction 1 as [|e l He _ IH]; [done|]. by rewrite count_cons, He, IH.
Qed.

Lemma polled_events ctx addr prev t0 t new r :
  polled ctx addr prev t0 t new r ->
  Forall (fun e => isRecv e = true \/ isRead e = true) new.
Proof.
  induction 1; repeat apply List.Forall_cons; try apply List.Forall_nil; cbn; auto.
Qed.

Lemma polled_counts ctx addr prev t0 t new r (p : Z * event -> bool) :
  (forall e, isRecv e = true \/ isRead e = true -> p e = false) ->
  polled ctx addr prev t0 t new r -> count p new = 0%nat.
Proof.
  intros Hp H. apply count_zero. eapply Forall_impl; [by eapply polled_events|].
  intros e He. by apply Hp.
Qed.

Lemma not_close_in_poll e : isRecv e = true \/ isRead e = true -> isClose e = false.
Proof. destruct e as [t []]; cbn; intros [|]; done. Qed.

Lemma not_open_in_poll e : isRecv e = true \/ isRead e = true -> isOpen e = false.
Proof. destruct e as [t []]; cbn; intros [|]; done. Qed.

Lemma not_trigger_in_poll e : isRecv e = true \/ isRead e = true -> isTrigger e = false.
Proof.
  destruct e as [t [| a [|c args] r | | |]]; cbn; intros [|]; try done.
  unfold isRead, isTrigger in *. cbn in *.
  apply String.eqb_eq in H as ->. done.
Qed.

Lemma count_nil p : count p [] = 0%nat.
Proof. reflexivity. Qed.

Ltac counting :=
  repeat first [rewrite count_app | rewrite count_cons | rewrite count_nil];
  cbn [isOpen isClose isRecv isLog snd].

(** ** The connection of a call is closed when the call returns *)

Lemma attempt_released ctx addr t0 new r : attempt ctx addr t0 new r -> released addr r new.
Proof.
  destruct 1; cbn [released];
    try match goal with
        | Hp : polled _ _ _ _ _ _ _ |- _ =>
            pose proof (polled_counts _ _ _ _ _ _ _ _ not_open_in_poll Hp) as Ho;
            pose proof (polled_counts _ _ _ _ _ _ _ _ not_close_in_poll Hp) as Hc
        end.
  - left. by counting.
  - right. split; [by counting|].
    eexists [_; _], _. split; [done|]. by counting.
  - right. split; [by counting|].
    eexists [_; _; _], _. split; [done|]. by counting.
  - counting. rewrite Ho, Hc. split; [lia|done].
  - right. counting. rewrite Ho. split; [done|].
    eexists (_ :: _ :: _ :: new), _. split; [done|]. counting.
    by rewrite Hc.
Qed.

Lemma toggled_released addr t0 new err :
  toggled addr t0 new err -> released addr (Returned err) new.
Proof.
  destruct 1; cbn [released].
  - left. by counting.
  - right. split; [by counting|]. eexists [_; _], _. split; [done|]. by counting.
Qed.

(** X1. saveBlocking and disablePersistence release the connection they
    open on every path by which they return (the deferred conn.Close()):
    a call that has returned has either opened no connection and closed
    none, or opened exactly one and closed it as its very last step; a call
    of saveBlocking that is still polling has closed nothing.
    disablePersistence always returns. *)
Theorem connection_is_released_on_return fuel ctx addr w :
  let s := saveBlocking fuel ctx addr w in
  let d := disablePersistence addr w in
  released addr (fst s) (since w (snd s)) /\
  released addr (fst d) (since w (snd d)) /\
  exists err, fst d = Returned err.
Proof.
  cbv zeta. split_and!.
  - destruct (saveBlocking fuel ctx addr w) as [r w'] eqn:E. cbn [fst snd].
    apply saveBlocking_attempt in E as (new & Ht & _ & Ha).
    rewrite (since_app Ht). by eapply attempt_released.
  - destruct (disablePersistence addr w) as [r w'] eqn:E. cbn [fst snd].
    apply disablePersistence_toggled in E as (new & err & -> & Ht & _ & Htog).
    rewrite (since_app Ht). by eapply toggled_released.
  - apply disablePersistence_returns.
Qed.

Arguments count : simpl never.

(** ** The save trigger of a call *)

Lemma polled_no_trigger ctx addr prev t0 t new r :
  polled ctx addr prev t0 t new r -> Forall (fun e => isTrigger e = false) new.
Proof.
  intros Hp%polled_events. eapply Forall_impl; [done|]. apply not_trigger_in_poll.
Qed.

Lemma attempt_trigger {ctx addr t0 new r l1 e l2} :
  attempt ctx addr t0 new r -> new = l1 ++ e :: l2 -> isTrigger e = true ->
  exists t1 t2 prev rb,
    l1 = [(t1, EDial addr (15 * Second) None); (t2, ECmd addr ["LASTSAVE"] (RInt prev))] /\
    snd e = ECmd addr ["BGSAVE"] rb /\
    count isTrigger l2 = 0%nat /\
    forall err, Err rb = Some err -> l2 = [(fst e, EClose addr)] /\ r = Returned (Some err).
Proof.
  destruct 1; intros E Htrig;
    try match goal with
        | Hp : polled _ _ _ _ _ _ _ |- _ =>
            pose proof (polled_no_trigger _ _ _ _ _ _ _ Hp) as Hno
        end.
  - destruct l1 as [|x [|y l1]]; cbn in E; simplify_eq; done.
  - destruct l1 as [|x [|y [|z [|u l1]]]]; cbn in E; simplify_eq; done.
  - destruct l1 as [|x [|y [|z [|u [|v l1]]]]]; cbn in E; simplify_eq; try done.
    eexists _, _, _, _. split_and!; [done..|]. intros err Herr. split; [done | congruence].
  - destruct l1 as [|x [|y [|z l1]]]; cbn in E; simplify_eq; try done.
    + eexists _, _, _, _. split_and!; [done..| |congruence].
      by apply count_zero.
    + by rewrite (Forall_inside Hno eq_refl) in Htrig.
  - destruct l1 as [|x [|y [|z l1]]]; cbn in E; simplify_eq; try done.
    + eexists _, _, _, _. split_and!; [done..| |congruence].
      rewrite count_app, (count_zero _ _ Hno). reflexivity.
    + match goal with H : _ ++ _ = _ ++ _ :: _ |- _ =>
        apply app_eq_app_cons in H as [(k & E & ->)|(k & -> & E)] end.
      * by rewrite (Forall_inside Hno E) in Htrig.
      * destruct k as [|x k]; cbn in E; simplify_eq; try done. by destruct k.
Qed.

(** X2. In a call of saveBlocking the save trigger (BGSAVE) is sent to the
    host of the call, and what precedes it is exactly the successful dial
    and the first read of LASTSAVE with an integer reply: a call whose dial
    or first read failed sends no trigger. No second trigger follows in the
    call. When the host refuses the trigger, the call only closes the
    connection and returns that refusal, without any poll. *)
Theorem trigger_follows_first_read fuel ctx addr w l1 e l2 :
  let out := saveBlocking fuel ctx addr w in
  since w (snd out) = l1 ++ e :: l2 -> isTrigger e = true ->
  exists t1 t2 prev rb,
    l1 = [(t1, EDial addr (15 * Second) None); (t2, ECmd addr ["LASTSAVE"] (RInt prev))] /\
    snd e = ECmd addr ["BGSAVE"] rb /\
    count isTrigger l2 = 0%nat /\
    forall err, Err rb = Some err ->
                l2 = [(fst e, EClose addr)] /\ fst out = Returned (Some err).
Proof.
  cbv zeta. destruct (saveBlocking fuel ctx addr w) as [r w'] eqn:E. cbn [fst snd].
  apply saveBlocking_attempt in E as (new & Ht & _ & Ha). rewrite (since_app Ht).
  intros E Htrig. by eapply attempt_trigger.
Qed.

(** ** The pace of the polls *)

Lemma polled_rate {ctx addr prev t0 t new r} tail :
  polled ctx addr prev t0 t new r -> 0 <= period t ->
  Forall (fun e => isRead e = false) tail ->
  forall l3 rd l4,
    new ++ tail = l3 ++ rd :: l4 -> isRead rd = true ->
    due t - period t + (Z.of_nat (count isRead l3) + 1) * period t <= fst rd.
Proof.
  intros Hp Hper Htail.
  induction Hp as [| | | |t0 t t1 t2 new r ? Hdue ? Hp IH]; intros l3 rd l4 E Hrd.
  - cbn in E. destruct (not_in_tail Htail E Hrd).
  - destruct l3 as [|x l3]; cbn in E; simplify_eq; try done.
    exfalso. eauto using not_in_tail.
  - destruct l3 as [|x [|y l3]]; cbn in E; simplify_eq; try done.
    + rewrite count_cons, count_nil. cbn. lia.
    + exfalso. eauto using not_in_tail.
  - destruct l3 as [|x [|y l3]]; cbn in E; simplify_eq; try done.
    + rewrite count_cons, count_nil. cbn. lia.
    + exfalso. eauto using not_in_tail.
  - destruct l3 as [|x [|y l3]]; cbn in E; simplify_eq; try done.
    + rewrite count_cons, count_nil. cbn. lia.
    + match goal with H : _ ++ _ = _ ++ _ :: _ |- _ =>
        pose proof (IH Hper _ _ _ H Hrd) as Hle end.
      change (period (ticked t t1)) with (period t) in Hle.
      pose proof (ticked_due t t1 Hper Hdue). rewrite !count_cons. cbn. lia.
Qed.

(** X3. The polls of saveBlocking cannot run ahead of its 10-second
    ticker: counted from the answer to the save trigger (time t0), the k-th
    read of the last-save marker is answered no earlier than t0 + k * 10 s.
    (The bound is on the number of polls so far, not on the distance
    between two of them: after a read that took long, the tick that came
    meanwhile is taken at once.) *)
Theorem polls_keep_ticker_pace fuel ctx addr w t0 l3 rd l4 :
  let new := since w (snd (saveBlocking fuel ctx addr w)) in
  triggerTime new = Some t0 ->
  afterTrigger new = l3 ++ rd :: l4 -> isRead rd = true ->
  t0 + (Z.of_nat (count isRead l3) + 1) * (10 * Second) <= fst rd.
Proof.
  cbv zeta. destruct (saveBlocking fuel ctx addr w) as [r w'] eqn:E. cbn [fst snd].
  apply saveBlocking_attempt in E as (new & Ht & _ & Ha).
  rewrite (since_app Ht). clear Ht.
  assert (Hper : 0 <= 10 * Second) by (by unfold Second, Nanosecond).
  inversion Ha; subst; cbn; try done.
  - unfold triggerTime. cbn. intros [= <-] E Hrd.
    destruct l3 as [|x l3]; cbn in E; simplify_eq; try done. by destruct l3.
  - unfold triggerTime. cbn. intros [= <-] E Hrd. rewrite <- (app_nil_r new0) in E.
    match goal with H : polled _ _ _ _ _ _ _ |- _ =>
      pose proof (polled_rate [] H Hper ltac:(constructor) l3 rd l4 E Hrd) as HH end.
    cbn [period due] in HH. lia.
  - unfold triggerTime. cbn. intros [= <-] E Hrd.
    match goal with H : polled _ _ _ _ _ _ _ |- _ =>
      pose proof (polled_rate [(endTime t4 new0, EClose addr)] H Hper
                    ltac:(by repeat constructor) l3 rd l4 E Hrd) as HH end.
    cbn [period due] in HH. lia.
Qed.

(** ** The log lines of a successful save *)

Lemma attempt_success_time ctx addr t0 new :
  attempt ctx addr t0 new (Returned None) -> t0 + 10 * Second <= endTime t0 new.
Proof.
  inversion 1; subst.
  match goal with H : polled _ _ _ _ _ _ _ |- _ =>
    apply polled_success_time in H as [Hend _]; [|by unfold Second, Nanosecond] end.
  cbn [due] in Hend. rewrite !endTime_cons, endTime_snoc. lia.
Qed.

Lemma toggled_no_log addr t0 new err :
  toggled addr t0 new err -> Forall (fun e => isLog e = false) new.
Proof. destruct 1; by repeat constructor. Qed.

Lemma disabled_logs t0 addrs new t m :
  disabled t0 addrs new -> (t, ELog m) ∈ new -> exists a e, a ∈ addrs /\ m = LogErr a e.
Proof.
  induction 1 as [|t0 addr rest new err new' Ht _ IH]; intros Hin; [by inversion Hin|].
  apply elem_of_app in Hin as [Hin|Hin].
  { apply toggled_no_log in Ht. rewrite Forall_forall in Ht. by apply Ht in Hin. }
  apply elem_of_app in Hin as [Hin|Hin].
  - destruct err as [e|]; cbn in Hin; [|by inversion Hin].
    apply list_elem_of_singleton in Hin. simplify_eq. exists addr, e. split; [by left|done].
  - destruct (IH Hin) as (a & e & Ha & ->). exists a, e. split; [by right|done].
Qed.

Lemma passed_saved ctx t0 addrs new r t a d :
  passed ctx t0 addrs new r -> (t, ELog (LogSaved a d)) ∈ new ->
  a ∈ addrs /\ 10 * Second <= d /\ t0 <= t - d.
Proof.
  induction 1 as [|t0 addr rest new Ha|t0 addr rest new err Ha Hlate
                 |t0 addr rest new err new' r Ha Hearly _ IH]; intros Hin.
  - by inversion Hin.
  - apply attempt_no_log in Ha. rewrite Forall_forall in Ha. by apply Ha in Hin.
  - apply elem_of_app in Hin as [Hin|Hin].
    { apply attempt_no_log in Ha. rewrite Forall_forall in Ha. by apply Ha in Hin. }
    apply list_elem_of_singleton in Hin. unfold saveLog in Hin.
    destruct err as [e|]; simplify_eq. apply attempt_success_time in Ha.
    split; [by left | lia].
  - apply elem_of_app in Hin as [Hin|Hin].
    { apply attempt_no_log in Ha. rewrite Forall_forall in Ha. by apply Ha in Hin. }
    apply elem_of_cons in Hin as [Hin|Hin].
    + unfold saveLog in Hin. destruct err as [e|]; simplify_eq.
      apply attempt_success_time in Ha. split; [by left | lia].
    + apply attempt_increasing, increasing_end in Ha.
      destruct (IH Hin) as (? & ? & ?). split; [by right | lia].
Qed.

Lemma saving_saved ctx addrs t0 new r t a d :
  saving ctx addrs t0 new r -> (t, ELog (LogSaved a d)) ∈ new ->
  a ∈ addrs /\ 10 * Second <= d /\ t0 <= t - d.
Proof.
  induction 1 as [|t0 new Hp|t0 new e Hp|t0 new t1 Hp|t0 new t1 new' r Hp Hle _ IH];
    intros Hin.
  - by inversion Hin.
  - by eapply passed_saved.
  - by eapply passed_saved.
  - apply elem_of_app in Hin as [Hin|Hin]; [by eapply passed_saved|].
    by apply list_elem_of_singleton in Hin.
  - apply elem_of_app in Hin as [Hin|Hin]; [by eapply passed_saved|].
    apply elem_of_cons in Hin as [Hin|Hin]; [done|].
    apply passed_increasing, increasing_end in Hp.
    destruct (IH Hin) as (? & ? & ?). split; [done|]. unfold Second, Nanosecond in *. lia.
Qed.

(** X4. Every line "saved in d" that [do] writes names a host of the list
    and a duration d of at least 10 seconds, and the call it reports began
    (d before the line was written) after [do] was entered: saveBlocking
    succeeds only at a tick of its 10-second ticker, so that an instant save
    is reported with 10 seconds or more. *)
Theorem saved_in_at_least_ten_seconds fuel ctx addrs w t a d :
  (t, ELog (LogSaved a d)) ∈ since w (snd (do fuel ctx addrs w)) ->
  a ∈ addrs /\ 10 * Second <= d /\ now w <= t - d.
Proof.
  destruct (do fuel ctx addrs w) as [r w'] eqn:E. cbn [snd].
  destruct addrs as [|a0 rest].
  { rewrite do_empty in E. simplify_eq. rewrite since_refl. by inversion 1. }
  apply do_run in E as (new1 & new2 & Ht & _ & Hd & Hs); [|done].
  rewrite (since_app Ht). intros [Hin|Hin]%elem_of_app.
  - by destruct (disabled_logs _ _ _ _ _ Hd Hin) as (? & ? & _ & ?).
  - apply disabled_increasing, increasing_end in Hd.
    destruct (saving_saved _ _ _ _ _ _ _ _ Hs Hin) as (? & ? & ?). split; [done | lia].
Qed.

(** ** A context that is done when the Saving phase starts *)

Lemma polled_no_pause ctx addr prev t0 t new r :
  polled ctx addr prev t0 t new r -> Forall (fun e => isPause e = false) new.
Proof. induction 1; repeat apply List.Forall_cons; try apply List.Forall_nil; done. Qed.

Lemma attempt_no_pause ctx addr t0 new r :
  attempt ctx addr t0 new r -> Forall (fun e => isPause e = false) new.
Proof.
  destruct 1; repeat apply List.Forall_cons; try apply List.Forall_nil; try done;
    match goal with H : polled _ _ _ _ _ _ _ |- _ => apply polled_no_pause in H end;
    [done|].
  apply Forall_app. split; [done|]. by repeat constructor.
Qed.

Lemma passed_expired ctx t0 a rest new r :
  passed ctx t0 (a :: rest) new r -> deadline ctx <= t0 ->
  dialsOf (15 * Second) new = [a] /\ r <> Returned None /\
  Forall (fun e => isPause e = false) new.
Proof.
  inversion 1 as [|? ? ? ? Ha|? ? ? ? err Ha Hlate|? ? ? ? err ? ? Ha Hearly Hp];
    subst; intros Hexp.
  - split_and!; [by eapply attempt_dials | done | by eapply attempt_no_pause].
  - rewrite dialsOf_app, (attempt_dials Ha). split_and!; [done..|].
    apply Forall_app. split; [by eapply attempt_no_pause|]. by repeat constructor.
  - apply attempt_increasing, increasing_end in Ha. lia.
Qed.

Lemma saving_expired ctx a rest t0 new r :
  saving ctx (a :: rest) t0 new r -> deadline ctx <= t0 ->
  (new = [] \/ dialsOf (15 * Second) new = [a]) /\
  Forall (fun e => isPause e = false) new.
Proof.
  inversion 1 as [|? ? Hp|? ? ? Hp|? ? ? Hp|? ? ? ? ? Hp]; subst; intros Hexp;
    try (destruct (passed_expired _ _ _ _ _ _ Hp Hexp) as (? & ? & ?)); try done.
  - split; [by left | constructor].
  - split; [by right | done].
  - split; [by right | done].
Qed.

(** X5. [do] does not look at the context before its first save: when the
    deadline has passed by the end of the Disabling phase (it had passed as
    [do] was entered, or it passed while persistence was being disabled),
    the first host of the list is still dialled for saving; it is the only
    one, no pause is taken, and no second pass is made. *)
Theorem expired_context_still_dials_first_host fuel ctx a rest w :
  let w1 := snd (disableAll (a :: rest) w) in
  let new := since w1 (snd (do (S fuel) ctx (a :: rest) w)) in
  deadline ctx <= now w1 ->
  dialsOf (15 * Second) new = [a] /\ count isPause new = 0%nat.
Proof.
  cbv zeta. intros Hexp.
  pose proof (do_starts_saving fuel ctx a rest w) as Hpre. cbv zeta in Hpre.
  rewrite do_passes in * by done.
  destruct (disableAll (a :: rest) w) as [r1 w1] eqn:E1. cbn [snd] in *. clear E1.
  destruct (saveBlocking fuel ctx a w1) as [r2 w2] eqn:E2. cbn [snd] in *.
  apply saveBlocking_attempt in E2 as (new2 & Ht2 & _ & Ha).
  rewrite (since_app Ht2) in Hpre.
  destruct (passes (S fuel) ctx (a :: rest) w1) as [r w'] eqn:E. cbn [snd] in *.
  apply passes_saving in E as (new & Ht & _ & Hs). rewrite (since_app Ht) in *.
  destruct (saving_expired _ _ _ _ _ _ Hs) as [Hdials Hnp]; [done|].
  split; [|by apply count_zero].
  destruct Hdials as [->|Hdials]; [|done].
  apply prefix_nil_inv in Hpre. subst new2. by inversion Ha.
Qed.

(** ** Persistence is disabled everywhere before the first save *)

Lemma timeouts_differ : (15 * Second =? 5 * Second) = false.
Proof. reflexivity. Qed.

Lemma toggled_no_trigger addr t0 new err :
  toggled addr t0 new err -> Forall (fun e => isTrigger e = false) new.
Proof. destruct 1; by repeat constructor. Qed.

Lemma disabled_no_trigger t0 addrs new :
  disabled t0 addrs new -> Forall (fun e => isTrigger e = false) new.
Proof.
  induction 1 as [|t0 addr rest new err new' Ht _ IH]; [constructor|].
  apply Forall_app. split; [by eapply toggled_no_trigger|].
  apply Forall_app. split; [|done]. destruct err; by repeat constructor.
Qed.

Lemma attempt_dials_disabling ctx addr t0 new r :
  attempt ctx addr t0 new r -> dialsOf (5 * Second) new = [].
Proof.
  destruct 1; cbn; unfold dialOf; cbn; rewrite timeouts_differ; try done.
  - by eapply polled_dials.
  - change (dialsOf (5 * Second) (new ++ [(endTime t3 new, EClose addr)]) = []).
    rewrite dialsOf_app. by erewrite polled_dials.
Qed.

Lemma passed_dials_disabling ctx t0 addrs new r :
  passed ctx t0 addrs new r -> dialsOf (5 * Second) new = [].
Proof.
  induction 1 as [|t0 addr rest new Ha|t0 addr rest new err Ha Hlate
                 |t0 addr rest new err new' r Ha Hearly _ IH];
    try apply attempt_dials_disabling in Ha; try done.
  - by rewrite dialsOf_app, Ha.
  - rewrite dialsOf_app, Ha. unfold dialsOf in *. cbn. done.
Qed.

Lemma saving_dials_disabling ctx addrs t0 new r :
  saving ctx addrs t0 new r -> dialsOf (5 * Second) new = [].
Proof.
  induction 1 as [|t0 new Hp|t0 new e Hp|t0 new t1 Hp|t0 new t1 new' r Hp Hle _ IH];
    try apply passed_dials_disabling in Hp; try done.
  - by rewrite dialsOf_app, Hp.
  - rewrite dialsOf_app, Hp. unfold dialsOf in *. cbn. done.
Qed.

(** X6. Persistence is disabled everywhere before anything is saved: when
    [do] sends a save trigger, disablePersistence has been called on every
    host of the list, in order, and it is not called again afterwards. *)
Theorem disabling_precedes_every_trigger fuel ctx addrs w l1 e l2 :
  since w (snd (do fuel ctx addrs w)) = l1 ++ e :: l2 -> isTrigger e = true ->
  dialsOf (5 * Second) l1 = addrs /\ dialsOf (5 * Second) l2 = [].
Proof.
  destruct (do fuel ctx addrs w) as [r w'] eqn:Edo. cbn [snd].
  destruct addrs as [|a rest].
  { rewrite do_empty in Edo. simplify_eq. rewrite since_refl. by destruct l1. }
  apply do_run in Edo as (new1 & new2 & Ht & _ & Hd & Hs); [|done].
  rewrite (since_app Ht). intros E Htrig.
  apply app_eq_app_cons in E as [(k & E & _)|(k & -> & E)].
  - apply disabled_no_trigger in Hd. by rewrite (Forall_inside Hd E) in Htrig.
  - apply saving_dials_disabling in Hs. rewrite E, dialsOf_app in Hs.
    apply app_eq_nil in Hs as [Hk Hl]. change (e :: l2) with ([e] ++ l2) in Hl.
    rewrite dialsOf_app in Hl. apply app_eq_nil in Hl as [_ Hl].
    rewrite dialsOf_app, (disabled_dials _ _ _ Hd), Hk, app_nil_r. done.
Qed.

(** ** The pause between two passes *)

Lemma passed_no_pause ctx t0 addrs new r :
  passed ctx t0 addrs new r -> Forall (fun e => isPause e = false) new.
Proof.
  induction 1 as [|t0 addr rest new Ha|t0 addr rest new err Ha Hlate
                 |t0 addr rest new err new' r Ha Hearly _ IH];
    try apply attempt_no_pause in Ha; try done.
  - apply Forall_app. split; [done|]. by repeat constructor.
  - apply Forall_app. split; [done|]. by constructor.
Qed.

Lemma passed_none_early ctx t0 addrs new :
  passed ctx t0 addrs new (Returned None) -> addrs <> [] -> endTime t0 new < deadline ctx.
Proof.
  remember (Returned None) as r eqn:Hr.
  induction 1 as [|t0 addr rest new Ha|t0 addr rest new err Ha Hlate
                 |t0 addr rest new err new' r Ha Hearly Hp IH]; intros Hne; try done.
  rewrite endTime_app, endTime_cons. cbn [saveLog fst].
  destruct rest as [|b rest]; [|by apply IH].
  inversion Hp; subst. by rewrite endTime_nil.
Qed.

Lemma saving_pause ctx addrs t0 new r :
  saving ctx addrs t0 new r -> addrs <> [] ->
  forall l1 e l2,
    new = l1 ++ e :: l2 -> isPause e = true ->
    (exists k, dialsOf (15 * Second) l1 = concat (replicate (S k) addrs)) /\
    endTime t0 l1 < deadline ctx /\
    endTime t0 l1 + 10 * Second <= fst e.
Proof.
  intros Hs Hne.
  induction Hs as [|t0 new Hp|t0 new e0 Hp|t0 new t1 Hp|t0 new t1 new' r Hp Hle _ IH];
    intros l1 e l2 E He.
  - by destruct l1.
  - apply passed_no_pause in Hp. by rewrite (Forall_inside Hp E) in He.
  - apply passed_no_pause in Hp. by rewrite (Forall_inside Hp E) in He.
  - apply app_eq_app_cons in E as [(k & E & _)|(k & _ & E)].
    + apply passed_no_pause in Hp. by rewrite (Forall_inside Hp E) in He.
    + destruct k as [|x k]; cbn in E; simplify_eq; try done. by destruct k.
  - apply app_eq_app_cons in E as [(k & E & _)|(k & -> & E)].
    + apply passed_no_pause in Hp. by rewrite (Forall_inside Hp E) in He.
    + destruct k as [|x k]; cbn in E; simplify_eq.
      * rewrite app_nil_r. split_and!; [|by apply (passed_none_early _ _ _ _ Hp)|done].
        exists 0%nat. cbn. rewrite app_nil_r. by eapply passed_dials.
      * destruct (IH _ _ _ eq_refl He) as ((n & Hn) & Hearly & Hpause).
        rewrite endTime_app, endTime_cons. cbn [fst]. split_and!; [|done..].
        exists (S n). rewrite dialsOf_app, (passed_dials _ _ _ _ _ Hp eq_refl).
        change (dialsOf (15 * Second) ((t1, ERecv TimeAfter) :: k))
          with (dialsOf (15 * Second) k).
        rewrite Hn. reflexivity.
Qed.

(** X7. The pause between two passes is taken only after whole passes:
    when its timer is received in the Saving phase, saveBlocking has been
    called on every host of the list, in the order of the list, once per
    pass made so far; the last of these calls had ended before the deadline;
    and the timer is received no earlier than 10 seconds after the end of
    that pass. *)
Theorem pause_follows_whole_passes fuel ctx addrs w l1 e l2 :
  let w1 := snd (disableAll addrs w) in
  since w1 (snd (do fuel ctx addrs w)) = l1 ++ e :: l2 -> isPause e = true ->
  (exists k, dialsOf (15 * Second) l1 = concat (replicate (S k) addrs)) /\
  endTime (now w1) l1 < deadline ctx /\
  endTime (now w1) l1 + 10 * Second <= fst e.
Proof.
  cbv zeta. destruct addrs as [|a rest].
  { rewrite do_empty. cbn. rewrite since_refl. by destruct l1. }
  rewrite do_passes by done.
  destruct (passes fuel ctx (a :: rest) (disableAll (a :: rest) w).2) as [r w'] eqn:E.
  cbn [snd]. apply passes_saving in E as (new & Ht & _ & Hs). rewrite (since_app Ht).
  intros E He. by eapply saving_pause.
Qed.

(** ** The address file, line by line *)

Lemma append_cons c (s t : string) : (String c s ++ t)%string = String c (s ++ t).
Proof. reflexivity. Qed.

Lemma append_nil_l (t : string) : ("" ++ t)%string = t.
Proof. reflexivity. Qed.

Lemma append_nil_r (s : string) : (s ++ "")%string = s.
Proof. induction s as [|c s IH]; [done|]. by rewrite append_cons, IH. Qed.

Lemma append_assoc (s t u : string) : ((s ++ t) ++ u)%string = (s ++ (t ++ u))%string.
Proof. induction s as [|c s IH]; [done|]. by rewrite !append_cons, IH. Qed.

Lemma revString_spec s acc acc' :
  revString (revString s acc) acc' = revString acc (s ++ acc')%string.
Proof.
  revert acc acc'. induction s as [|c s IH]; intros acc acc'; [done|].
  rewrite append_cons. cbn [revString]. by rewrite IH.
Qed.

Lemma revString_involutive s : revString (revString s "") "" = s.
Proof. rewrite revString_spec. cbn [revString]. apply append_nil_r. Qed.

Lemma revString_app s t acc : revString (s ++ t) acc = revString t (revString s acc).
Proof.
  revert acc. induction s as [|c s IH]; intros acc; [done|].
  rewrite append_cons. cbn [revString]. by rewrite IH.
Qed.

Lemma revString_acc s acc : revString s acc = (revString s "" ++ acc)%string.
Proof.
  revert acc. induction s as [|c s IH]; intros acc; cbn [revString]; [done|].
  rewrite (IH (String c acc)), (IH (String c "")), append_assoc. done.
Qed.

Lemma revString_empty s acc : revString s acc = "" -> s = "" /\ acc = "".
Proof.
  revert acc. induction s as [|c s IH]; intros acc; cbn; [done|].
  by intros [_ [=]]%IH.
Qed.

Lemma length_append (s t : string) :
  String.length (s ++ t) = (String.length s + String.length t)%nat.
Proof. induction s as [|c s IH]; [done|]. rewrite append_cons. cbn [String.length]. lia. Qed.

Lemma skip_split n s : exists b, s = (b ++ skip n s)%string.
Proof.
  revert s. induction n as [|n IH]; intros [|c s]; cbn [skip]; try by exists "".
  destruct (IH s) as [b Hb]. exists (String c b). by rewrite append_cons, <- Hb.
Qed.

Lemma skip_shorter n c s :
  (String.length (skip (S n) (String c s)) <= String.length s)%nat.
Proof.
  cbn [skip]. revert s. induction n as [|n IH]; intros [|d s]; cbn [skip String.length];
    try lia. specialize (IH s). lia.
Qed.

Lemma skip_app n s t :
  (n <= String.length s)%nat -> skip n (s ++ t) = (skip n s ++ t)%string.
Proof.
  revert s. induction n as [|n IH]; intros [|c s] H; cbn [String.length] in H;
    try lia; try done.
  rewrite append_cons. cbn [skip]. apply IH. lia.
Qed.

Section Trim.

Variable width : string -> nat.
Hypothesis width_nil : width "" = 0%nat.

Lemma trimN_width fuel s :
  (String.length s <= fuel)%nat -> width (trimN width fuel s) = 0%nat.
Proof.
  revert s. induction fuel as [|fuel IH]; intros s Hlen; cbn [trimN].
  - destruct s; [done | cbn in Hlen; lia].
  - destruct (width s) as [|k] eqn:Hw; [done|].
    apply IH. destruct s as [|c s]; [by rewrite width_nil in Hw|].
    pose proof (skip_shorter k c s). cbn [String.length] in Hlen. lia.
Qed.

Lemma trimN_split fuel s : exists b, s = (b ++ trimN width fuel s)%string.
Proof.
  revert s. induction fuel as [|fuel IH]; intros s; cbn [trimN]; [by exists ""|].
  destruct (width s) as [|k]; [by exists ""|].
  destruct (skip_split (S k) s) as [b1 Hb1]. destruct (IH (skip (S k) s)) as [b2 Hb2].
  exists (b1 ++ b2)%string. by rewrite append_assoc, <- Hb2.
Qed.

Lemma trimN_id fuel s : width s = 0%nat -> trimN width fuel s = s.
Proof. intros H. destruct fuel; cbn [trimN]; [done|]. by rewrite H. Qed.

End Trim.

(** A white-space byte is no part of a white-space character of more than
    one byte. *)
Lemma isSpace_one_byte c :
  isSpace c = true ->
  (forall a, isSpace2 a c = false) /\ (forall a d, isSpace3 a d c = false).
Proof.
  unfold isSpace, isSpace2, isSpace3. cbv zeta. set (n := nat_of_ascii c). intros H.
  assert (Hn : (n <= 32)%nat).
  { apply orb_true_iff in H as [[_ H]%andb_true_iff|H];
      [apply Nat.leb_le in H|apply Nat.eqb_eq in H]; lia. }
  assert (E1 : forall k, (32 < k)%nat -> (n =? k)%nat = false)
    by (intros; apply Nat.eqb_neq; lia).
  assert (E2 : (128 <=? n)%nat = false) by (apply Nat.leb_gt; lia).
  split; intros; rewrite ?E1, ?E2 by lia;
    repeat match goal with
           | |- context [(nat_of_ascii ?x =? ?y)%nat] => destruct (nat_of_ascii x =? y)%nat
           end; reflexivity.
Qed.

Lemma spaceWidth_snoc x c :
  isSpace c = true -> x <> "" -> spaceWidth (x ++ String c "") = spaceWidth x.
Proof.
  intros Hc Hx. destruct (isSpace_one_byte c Hc) as [H2 H3].
  destruct x as [|a [|d [|e x]]]; [done|..]; rewrite ?append_cons, ?append_nil_l;
    cbn [spaceWidth]; rewrite ?H2, ?H3; reflexivity.
Qed.

Lemma spaceWidth_length s : (spaceWidth s <= String.length s)%nat.
Proof.
  destruct s as [|a [|d [|e s]]]; cbn [spaceWidth String.length];
    repeat match goal with |- context [if ?b then _ else _] => destruct b end; lia.
Qed.

Lemma trimN_snoc c n :
  isSpace c = true ->
  forall x, (String.length x <= n)%nat ->
    trimN spaceWidth (S n) (x ++ String c "")
    = match trimN spaceWidth n x with
      | EmptyString => EmptyString
      | y => (y ++ String c "")%string
      end.
Proof.
  intros Hc. induction n as [|n IH]; intros x Hlen.
  - destruct x; [|cbn in Hlen; lia]. rewrite append_nil_l. cbn [trimN spaceWidth].
    by rewrite Hc.
  - destruct (decide (x = "")) as [->|Hx].
    { rewrite append_nil_l. cbn [trimN spaceWidth]. by rewrite Hc. }
    cbn [trimN]. rewrite (spaceWidth_snoc _ _ Hc Hx).
    destruct (spaceWidth x) as [|k] eqn:Hw; [by destruct x|].
    pose proof (spaceWidth_length x) as Hk. rewrite Hw in Hk.
    rewrite skip_app by done. apply (IH (skip (S k) x)).
    destruct x as [|a x]; [done|]. pose proof (skip_shorter k a x).
    cbn [String.length] in Hlen. lia.
Qed.

Lemma trimRight_space c r : isSpace c = true -> trimRight (String c r) = trimRight r.
Proof.
  intros Hc. unfold trimRight. cbn [String.length trimN spaceWidthRev]. by rewrite Hc.
Qed.

Lemma TrimSpace_snoc_space s c :
  isSpace c = true -> TrimSpace (s ++ String c "") = TrimSpace s.
Proof.
  intros Hc. unfold TrimSpace, trimLeft at 1.
  rewrite length_append. cbn [String.length]. rewrite Nat.add_1_r.
  rewrite (trimN_snoc c _ Hc) by done. fold (trimLeft s).
  destruct (trimLeft s) as [|a u]; [done|].
  rewrite revString_app. cbn [revString]. by rewrite trimRight_space.
Qed.

Lemma TrimSpace_dropCR r : TrimSpace (revString (dropCR r) "") = TrimSpace (revString r "").
Proof.
  destruct r as [|c r]; [done|]. cbn [dropCR].
  destruct (Ascii.eqb_spec c CR) as [->|]; [|done].
  cbn [revString]. rewrite (revString_acc r (String CR "")).
  by rewrite TrimSpace_snoc_space.
Qed.

Lemma scanLines_line l rest acc :
  hasLF l = false ->
  scanLines (l ++ String LF rest) acc
  = revString (dropCR (revString l acc)) "" :: scanLines rest "".
Proof.
  revert acc. induction l as [|c l IH]; intros acc H;
    rewrite ?append_nil_l, ?append_cons; cbn [scanLines revString].
  - by rewrite Ascii.eqb_refl.
  - cbn in H. apply orb_false_elim in H as [Hc Hl]. rewrite Hc. by apply IH.
Qed.

Lemma scanLines_end l acc :
  hasLF l = false ->
  scanLines l acc
  = match revString l acc with
    | EmptyString => []
    | r => [revString (dropCR r) ""]
    end.
Proof.
  revert acc. induction l as [|c l IH]; intros acc H; cbn [scanLines revString].
  - by destruct acc.
  - cbn in H. apply orb_false_elim in H as [Hc Hl]. rewrite Hc. by apply IH.
Qed.

Lemma scanLines_unlines ls tail :
  Forall (fun l => hasLF l = false) ls -> hasLF tail = false ->
  map TrimSpace (scanLines (unlines ls ++ tail) "")
  = map TrimSpace (ls ++ match tail with EmptyString => [] | _ => [tail] end).
Proof.
  intros Hls Htail. induction Hls as [|l ls Hl _ IH]; cbn [unlines].
  - rewrite append_nil_l, (scanLines_end _ _ Htail).
    destruct tail as [|c tail]; [done|].
    destruct (revString (String c tail) "") as [|c' r] eqn:Hr.
    { by apply revString_empty in Hr as [[=] _]. }
    cbn [map app]. by rewrite TrimSpace_dropCR, <- Hr, revString_involutive.
  - rewrite !append_assoc. unfold nl at 1. rewrite append_cons, append_nil_l.
    rewrite (scanLines_line _ _ _ Hl).
    cbn [map app]. by rewrite TrimSpace_dropCR, revString_involutive, IH.
Qed.

(** *** The buffer of the scanner *)

Lemma scanned_line l rest acc n :
  hasLF l = false -> n + Z.of_nat (String.length l) < MaxScanTokenSize ->
  scanned (l ++ String LF rest) acc n
  = let (more, long) := scanned rest "" 0 in
    (revString acc (l ++ String LF more), long).
Proof.
  revert acc n. induction l as [|c l IH]; intros acc n H Hlen;
    rewrite ?append_nil_l, ?append_cons; cbn [scanned].
  - rewrite Ascii.eqb_refl. by destruct (scanned rest "" 0).
  - cbn in H. apply orb_false_elim in H as [Hc Hl]. rewrite Hc.
    cbn [String.length] in Hlen.
    destruct (Z.leb_spec MaxScanTokenSize (n + 1)); [lia|].
    rewrite IH by first [done | lia]. by destruct (scanned rest "" 0).
Qed.

Lemma scanned_end l acc n :
  hasLF l = false -> n + Z.of_nat (String.length l) < MaxScanTokenSize ->
  scanned l acc n = (revString acc l, false).
Proof.
  revert acc n. induction l as [|c l IH]; intros acc n H Hlen; cbn [scanned]; [done|].
  cbn in H. apply orb_false_elim in H as [Hc Hl]. rewrite Hc.
  cbn [String.length] in Hlen.
  destruct (Z.leb_spec MaxScanTokenSize (n + 1)); [lia|].
  by rewrite IH by first [done | lia].
Qed.

Lemma scanned_long l rest acc n :
  hasLF l = false -> n < MaxScanTokenSize ->
  MaxScanTokenSize <= n + Z.of_nat (String.length l) ->
  scanned (l ++ rest) acc n = ("", true).
Proof.
  revert acc n. induction l as [|c l IH]; intros acc n H Hn Hlen;
    [cbn in Hlen; lia|].
  rewrite append_cons. cbn [scanned].
  cbn in H. apply orb_false_elim in H as [Hc Hl]. rewrite Hc.
  cbn [String.length] in Hlen.
  destruct (Z.leb_spec MaxScanTokenSize (n + 1)); [done|].
  apply IH; first [done | lia].
Qed.

Lemma scanned_unlines ls data :
  Forall (fun l => hasLF l = false /\ Z.of_nat (String.length l) < MaxScanTokenSize) ls ->
  scanned (unlines ls ++ data) "" 0
  = let (more, long) := scanned data "" 0 in ((unlines ls ++ more)%string, long).
Proof.
  induction 1 as [|l ls [Hl Hlen] _ IH]; cbn [unlines].
  - rewrite append_nil_l. by destruct (scanned data "" 0).
  - rewrite !append_assoc. unfold nl at 1. rewrite append_cons, append_nil_l.
    rewrite scanned_line, IH by first [done | lia].
    destruct (scanned data "" 0) as [more long]. cbn [revString].
    by rewrite !append_assoc.
Qed.

(** X8. readLines gives one entry for each line of the file, in the order
    of the file, as long as no line reaches the 64 KiB of the scanner's
    buffer: for a file made of the lines [ls], each ended by a newline, and
    of a last line [tail] without newline (counted when it is not empty),
    the result is the list of these lines, each with the white space around
    it removed -- the carriage return of a CRLF line ending included --
    together with the error of the reader. At a line of 65536 bytes or more
    the reading stops: the result is the lines before it, and the error
    ErrTooLong. *)
Theorem readLines_gives_the_lines fs name ls readErr :
  Forall (fun l => hasLF l = false /\ Z.of_nat (String.length l) < MaxScanTokenSize) ls ->
  (forall tail,
     hasLF tail = false -> Z.of_nat (String.length tail) < MaxScanTokenSize ->
     fs name = Scanner (unlines ls ++ tail) readErr ->
     readLines fs name
     = (map TrimSpace (ls ++ match tail with EmptyString => [] | _ => [tail] end),
        readErr)) /\
  (forall long rest,
     hasLF long = false -> MaxScanTokenSize <= Z.of_nat (String.length long) ->
     fs name = Scanner (unlines ls ++ long ++ rest) readErr ->
     readLines fs name = (map TrimSpace ls, Some ErrTooLong)).
Proof.
  intros Hls.
  assert (Hlf : Forall (fun l => hasLF l = false) ls).
  { eapply Forall_impl; [done|]. by intros l [? _]. }
  split.
  - intros tail Htail Hlen Hfs. unfold readLines. rewrite Hfs. unfold Scanner.
    rewrite (scanned_unlines _ _ Hls), scanned_end by first [done | lia].
    cbn [revString]. by rewrite scanLines_unlines.
  - intros long rest Hlong Hlen Hfs. unfold readLines. rewrite Hfs. unfold Scanner.
    rewrite (scanned_unlines _ _ Hls), scanned_long by first [done | lia].
    rewrite append_nil_r, <- (append_nil_r (unlines ls)), scanLines_unlines by done.
    by rewrite app_nil_r.
Qed.

Lemma spaceWidth_start s : spaceWidth s = 0%nat -> startsWithSpace s = false.
Proof. destruct s as [|c s]; [done|]. cbn. by destruct (isSpace c). Qed.

Lemma spaceWidthRev_start r : spaceWidthRev r = 0%nat -> startsWithSpace r = false.
Proof. destruct r as [|c r]; [done|]. cbn. by destruct (isSpace c). Qed.

Lemma startsWithSpace_app s t :
  startsWithSpace (s ++ t) = false -> startsWithSpace s = false.
Proof. by destruct s. Qed.

Lemma TrimSpace_trimmed s :
  startsWithSpace (TrimSpace s) = false /\ endsWithSpace (TrimSpace s) = false.
Proof.
  unfold endsWithSpace, TrimSpace. rewrite revString_involutive.
  split; [|by apply spaceWidthRev_start, trimN_width].
  destruct (trimN_split spaceWidthRev (String.length (revString (trimLeft s) ""))
              (revString (trimLeft s) "")) as [b Hb].
  fold (trimRight (revString (trimLeft s) "")) in Hb.
  apply (f_equal (fun x => revString x "")) in Hb.
  rewrite revString_involutive, revString_app, revString_acc in Hb.
  assert (Hs : startsWithSpace (trimLeft s) = false)
    by (by apply spaceWidth_start, trimN_width).
  rewrite Hb in Hs. by apply startsWithSpace_app in Hs.
Qed.

Lemma TrimSpace_id s :
  spaceWidth s = 0%nat -> spaceWidthRev (revString s "") = 0%nat -> TrimSpace s = s.
Proof.
  intros Hs He. unfold TrimSpace, trimLeft. rewrite (trimN_id _ _ _ Hs).
  unfold trimRight. rewrite (trimN_id _ _ _ He). apply revString_involutive.
Qed.


(** X10. Writing and reading back: a file that holds one host per line,
    each line ended by a newline, is read as the list of these hosts,
    unchanged and in order, provided that no host holds a newline, is of
    65536 bytes or more, or starts or ends with a white-space character (of
    one byte or, in UTF-8, of more). *)
Theorem readLines_reads_back_hosts fs name hosts readErr :
  Forall (fun h => hasLF h = false /\
                   Z.of_nat (String.length h) < MaxScanTokenSize /\
                   spaceWidth h = 0%nat /\
                   spaceWidthRev (revString h "") = 0%nat) hosts ->
  fs name = Scanner (unlines hosts) readErr ->
  readLines fs name = (hosts, readErr).
Proof.
  intros Hh Hfs. unfold readLines. rewrite Hfs. unfold Scanner.
  rewrite <- (append_nil_r (unlines hosts)), scanned_unlines;
    [|eapply Forall_impl; [done|]; by intros h (? & ? & _)].
  cbn [scanned revString]. f_equal.
  rewrite (scanLines_unlines hosts "");
    [|eapply Forall_impl; [done|]; by intros h (? & _)|done].
  rewrite app_nil_r. transitivity (map id hosts); [|apply map_id].
  apply map_ext_Forall. eapply Forall_impl; [done|].
  intros h (_ & _ & ? & ?). by apply TrimSpace_id.
Qed.

(** ** How [main] ends *)

(** X11. [main] ends by log.Fatal exactly when the start-up fails: when
    readLines returns an error (the file cannot be opened, or the scanner
    fails, whatever was read before), or when the file has no line. It has
    then written that one line to the log and nothing else has happened: no
    host was dialled. With at least one line read, no result of [do] is
    fatal. The shuffle never indexes out of range. *)
Theorem main_is_fatal_iff_startup_fails fuel flags fs rnd w :
  let out := main fuel flags fs rnd w in
  let read := readLines fs (Addresses flags) in
  fst out <> Returned ExitPanic /\
  (fst out = Returned ExitFatal <-> snd read <> None \/ fst read = []) /\
  (fst out = Returned ExitFatal ->
   exists e,
     since w (snd out) = [(now w, ELog (LogFatal e))] /\
     (snd read = Some e \/ snd read = None /\ e = ErrorString "empty addresses")).
Proof.
  cbv zeta. unfold main. rewrite floorDeadline_Addresses.
  destruct (readLines fs (Addresses flags)) as [addrs [e|]] eqn:Hread; cbn [fst snd].
  { split_and!; [done| |].
    - split; [by left | done].
    - intros _. exists e. split; [|by left]. by apply since_app. }
  destruct addrs as [|a rest].
  { split_and!; [done| |].
    - split; [by right | done].
    - intros _. eexists. split; [|by right]. by apply since_app. }
  destruct (shuffle_nonempty rnd (a :: rest)) as (out & -> & Hout); [done|].
  unfold bind, WithTimeout.
  pose proof (do_returns_deadline fuel
    {| deadline := now w + Deadline (floorDeadline flags) |} out w) as Hdo.
  destruct (do fuel _ out w) as [[err|] w'] eqn:E; cbn [fst snd] in *.
  - destruct (Hdo err Hout eq_refl) as [-> _]. cbn.
    destruct (decide (DeadlineExceeded = DeadlineExceeded)); [|done].
    split_and!; try done. split; [done | by intros [|]].
  - split_and!; try done. split; [done | by intros [|]].
Qed.

(** ** Every order can come out of the shuffle *)

Lemma swap_app (l t : list string) i j :
  (i < length l)%nat -> (j < length l)%nat ->
  swap (l ++ t) i j = (fun q => q ++ t) <$> swap l i j.
Proof.
  intros Hi Hj. unfold swap. rewrite !lookup_app_l by done.
  destruct (l !! j) as [y|]; [|done]. destruct (l !! i) as [x|]; [|done].
  cbn. f_equal. rewrite insert_app_l by done.
  rewrite insert_app_l; [done|]. by rewrite length_insert.
Qed.

Lemma swap_length (l l' : list string) i j : swap l i j = Some l' -> length l' = length l.
Proof.
  unfold swap. destruct (l !! j), (l !! i); intros [= <-]. by rewrite !length_insert.
Qed.

Lemma shuffleFrom_S rnd n i (l : list string) :
  shuffleFrom rnd (S n) i l
  = match swap l i (Intn rnd i (i + 1)) with
    | Some l1 => shuffleFrom rnd n (S i) l1
    | None => None
    end.
Proof. reflexivity. Qed.

Lemma shuffleFrom_app rnd n i (l t : list string) :
  (i + n <= length l)%nat ->
  shuffleFrom rnd n i (l ++ t) = (fun q => q ++ t) <$> shuffleFrom rnd n i l.
Proof.
  revert i l. induction n as [|n IH]; intros i l Hlen; [done|].
  rewrite !shuffleFrom_S.
  assert (Hj : (Intn rnd i (i + 1) < i + 1)%nat) by (apply Nat.mod_upper_bound; lia).
  rewrite swap_app by lia.
  destruct (swap l i (Intn rnd i (i + 1))) as [l1|] eqn:Hs; cbn; [|done].
  apply IH. apply swap_length in Hs. lia.
Qed.

Lemma shuffleFrom_ext rnd rnd' n i (l : list string) :
  (forall k, (i <= k < i + n)%nat -> rnd k = rnd' k) ->
  shuffleFrom rnd n i l = shuffleFrom rnd' n i l.
Proof.
  revert i l. induction n as [|n IH]; intros i l Hext; [done|].
  rewrite !shuffleFrom_S. unfold Intn. rewrite (Hext i) by lia.
  destruct (swap l i (rnd' i mod (i + 1))) as [l1|]; [|done].
  apply IH. intros k Hk. apply Hext. lia.
Qed.

Lemma shuffleFrom_snoc rnd n i (l : list string) :
  shuffleFrom rnd (S n) i l
  = match shuffleFrom rnd n i l with
    | Some l1 => swap l1 (i + n) (Intn rnd (i + n) (i + n + 1))
    | None => None
    end.
Proof.
  revert i l. induction n as [|n IH]; intros i l.
  - rewrite shuffleFrom_S. cbn [shuffleFrom]. rewrite Nat.add_0_r. by destruct (swap _ _ _).
  - rewrite (shuffleFrom_S rnd (S n)), (shuffleFrom_S rnd n).
    destruct (swap l i _) as [l1|]; [|done].
    rewrite IH. by replace (S i + n)%nat with (i + S n)%nat by lia.
Qed.

(** The last step of the shuffle, after a shuffle of the hosts before the
    last that gave [q]: it swaps the last host with the one at [j]. *)
Lemma shuffle_last rnd' (l : list string) x q j r :
  shuffle rnd' l = Some q -> (j <= length l)%nat ->
  swap (q ++ [x]) (length l) j = Some r ->
  exists rnd, shuffle rnd (l ++ [x]) = Some r.
Proof.
  intros Hq Hj Hswap.
  exists (fun k => if (k <? length l)%nat then rnd' k else j).
  unfold shuffle in *. rewrite length_app, Nat.add_1_r, shuffleFrom_snoc.
  rewrite shuffleFrom_app by lia.
  rewrite (shuffleFrom_ext _ rnd'), Hq.
  - cbn [fmap option_fmap option_map Nat.add]. unfold Intn.
    rewrite Nat.ltb_irrefl, Nat.mod_small by lia. done.
  - intros k Hk. destruct (Nat.ltb_spec k (length l)); [done | lia].
Qed.


(** ** Every call of saveBlocking is reported *)

Lemma passed_logged ctx t0 addrs new r :
  passed ctx t0 addrs new r ->
  match r with
  | Returned _ => count isLog new = length (dialsOf (15 * Second) new)
  | Running => S (count isLog new) = length (dialsOf (15 * Second) new)
  end.
Proof.
  induction 1 as [|t0 addr rest new Ha|t0 addr rest new err Ha Hlate
                 |t0 addr rest new err new' r Ha Hearly _ IH];
    try (pose proof (count_zero _ _ (attempt_no_log _ _ _ _ _ Ha)) as Hc;
         pose proof (attempt_dials Ha) as Hd).
  - done.
  - by rewrite Hc, Hd.
  - rewrite count_app, dialsOf_app, Hc, Hd, count_cons, count_nil. done.
  - rewrite count_app, dialsOf_app, Hc, Hd, count_cons.
    change (dialsOf (15 * Second) (saveLog addr t0 (endTime t0 new) err :: new'))
      with (dialsOf (15 * Second) new').
    cbn [saveLog isLog snd app length Nat.add]. destruct r; lia.
Qed.

Lemma saving_logged ctx addrs t0 new r :
  saving ctx addrs t0 new r ->
  match r with
  | Returned _ => count isLog new = length (dialsOf (15 * Second) new)
  | Running => count isLog new = length (dialsOf (15 * Second) new) \/
               S (count isLog new) = length (dialsOf (15 * Second) new)
  end.
Proof.
  induction 1 as [|t0 new Hp|t0 new e Hp|t0 new t1 Hp|t0 new t1 new' r Hp Hle _ IH];
    try apply passed_logged in Hp.
  - by left.
  - by right.
  - done.
  - rewrite count_app, dialsOf_app, count_cons, count_nil, length_app. cbn. lia.
  - rewrite count_app, dialsOf_app, count_cons, length_app.
    change (dialsOf (15 * Second) ((t1, ERecv TimeAfter) :: new'))
      with (dialsOf (15 * Second) new').
    cbn [isLog snd Nat.add]. destruct r; lia.
Qed.

(** X13. In the Saving phase every call of saveBlocking that has returned
    has its line in the log, and the log has no other line: once [do] has
    returned, the lines written in the phase are as many as the hosts
    dialled for saving; while [do] runs, at most the call in progress is
    still to be reported. *)
Theorem every_attempt_is_logged fuel ctx addrs w :
  let w1 := snd (disableAll addrs w) in
  let out := do fuel ctx addrs w in
  let new := since w1 (snd out) in
  match fst out with
  | Returned _ => count isLog new = length (dialsOf (15 * Second) new)
  | Running => count isLog new = length (dialsOf (15 * Second) new) \/
               S (count isLog new) = length (dialsOf (15 * Second) new)
  end.
Proof.
  cbv zeta. destruct addrs as [|a rest].
  { rewrite do_empty. cbn [fst snd disableAll ret]. by rewrite since_refl. }
  rewrite do_passes by done.
  destruct (passes fuel ctx (a :: rest) (disableAll (a :: rest) w).2) as [r w'] eqn:E.
  cbn [fst snd]. apply passes_saving in E as (new & Ht & _ & Hs). rewrite (since_app Ht).
  by apply saving_logged in Hs.
Qed.

(** ** A normal end comes with the deadline *)

Lemma floorDeadline_Minute flags : Minute <= Deadline (floorDeadline flags).
Proof. unfold floorDeadline. by destruct (Z.ltb_spec (Deadline flags) Minute). Qed.

(** X14. [main] returns normally only once its deadline has passed, and
    the deadline is never less than one minute: a run that ends with the
    exit status 0 has lasted the requested duration, and at least a
    minute. *)
Theorem main_returns_after_deadline fuel flags fs rnd w :
  let out := main fuel flags fs rnd w in
  fst out = Returned ExitOK ->
  now w + Minute <= now w + Deadline (floorDeadline flags) /\
  now w + Deadline (floorDeadline flags) <= now (snd out).
Proof.
  cbv zeta. intros Hok. split; [pose proof (floorDeadline_Minute flags); lia|].
  revert Hok. unfold main. rewrite floorDeadline_Addresses.
  destruct (readLines fs (Addresses flags)) as [addrs [e|]] eqn:Hread; [done|].
  destruct addrs as [|a rest]; [done|].
  destruct (shuffle_nonempty rnd (a :: rest)) as (out & -> & Hout); [done|].
  unfold bind, WithTimeout.
  pose proof (do_returns_deadline fuel
    {| deadline := now w + Deadline (floorDeadline flags) |} out w) as Hdo.
  destruct (do fuel _ out w) as [[err|] w'] eqn:E; cbn [fst snd] in *; [|done].
  destruct (Hdo err Hout eq_refl) as [-> Hlate]. cbn.
  destruct (decide (DeadlineExceeded = DeadlineExceeded)); done.
Qed.

(** ** The same host, saved again *)

Lemma app_eq_app_cons2 {A} (k1 k2 l1 : list A) e1 l2 e2 l3 :
  k1 ++ k2 = l1 ++ e1 :: l2 ++ e2 :: l3 ->
  (exists k, k1 = l1 ++ e1 :: l2 ++ e2 :: k) \/
  (exists ka kb, k1 = l1 ++ e1 :: ka /\ l2 = ka ++ kb /\ k2 = kb ++ e2 :: l3) \/
  (exists k, l1 = k1 ++ k /\ k2 = k ++ e1 :: l2 ++ e2 :: l3).
Proof.
  intros E. apply app_eq_app_cons in E as [(k & -> & E)|(k & -> & ->)].
  - symmetry in E. apply app_eq_app_cons in E as [(k' & -> & _)|(k' & -> & ->)].
    + left. by exists k'.
    + right. left. by exists k, k'.
  - right. right. by exists k.
Qed.

Lemma dialsOf_cons_dial timeout e a l :
  dialOf timeout e = Some a -> dialsOf timeout (e :: l) = a :: dialsOf timeout l.
Proof. intros H. unfold dialsOf. cbn. by rewrite H. Qed.

Lemma passed_dials_prefix ctx t0 addrs new r :
  passed ctx t0 addrs new r -> dialsOf (15 * Second) new `prefix_of` addrs.
Proof.
  induction 1 as [|t0 addr rest new Ha|t0 addr rest new err Ha Hlate
                 |t0 addr rest new err new' r Ha Hearly _ IH];
    try (pose proof (attempt_dials Ha) as Hd).
  - done.
  - rewrite Hd. apply prefix_cons, prefix_nil.
  - rewrite dialsOf_app, Hd. apply prefix_cons, prefix_nil.
  - rewrite dialsOf_app, Hd.
    change (dialsOf (15 * Second) (saveLog addr t0 (endTime t0 new) err :: new'))
      with (dialsOf (15 * Second) new').
    by apply prefix_cons.
Qed.

Lemma passed_one_dial_each ctx t0 addrs new r l1 e1 l2 e2 l3 a :
  passed ctx t0 addrs new r -> NoDup addrs ->
  new = l1 ++ e1 :: l2 ++ e2 :: l3 ->
  dialOf (15 * Second) e1 = Some a -> dialOf (15 * Second) e2 = Some a -> False.
Proof.
  intros Hp Hnd -> H1 H2. apply passed_dials_prefix in Hp as [rest ->].
  rewrite dialsOf_app, (dialsOf_cons_dial _ _ _ _ H1), dialsOf_app,
    (dialsOf_cons_dial _ _ _ _ H2) in Hnd.
  rewrite <- app_assoc in Hnd. apply NoDup_app in Hnd as (_ & _ & Hnd).
  apply NoDup_cons in Hnd as [Hnot _]. apply Hnot.
  rewrite ?elem_of_app, ?elem_of_cons. naive_solver.
Qed.

Lemma saving_dials_spaced ctx addrs t0 new r :
  saving ctx addrs t0 new r -> NoDup addrs ->
  forall l1 e1 l2 e2 l3 a,
    new = l1 ++ e1 :: l2 ++ e2 :: l3 ->
    dialOf (15 * Second) e1 = Some a -> dialOf (15 * Second) e2 = Some a ->
    fst e1 + 10 * Second <= fst e2.
Proof.
  intros Hs Hnd.
  induction Hs as [|t0 new Hp|t0 new e Hp|t0 new t1 Hp|t0 new t1 new' r Hp Hle Hs IH];
    intros l1 e1 l2 e2 l3 a E Hd1 Hd2.
  - by destruct l1.
  - destruct (passed_one_dial_each _ _ _ _ _ _ _ _ _ _ _ Hp Hnd E Hd1 Hd2).
  - destruct (passed_one_dial_each _ _ _ _ _ _ _ _ _ _ _ Hp Hnd E Hd1 Hd2).
  - apply app_eq_app_cons2 in E as [(k & E)|[(ka & kb & _ & _ & E)|(k & _ & E)]].
    + destruct (passed_one_dial_each _ _ _ _ _ _ _ _ _ _ _ Hp Hnd E Hd1 Hd2).
    + destruct kb as [|x kb]; cbn in E; simplify_eq; try done. by destruct kb.
    + destruct k as [|x k]; cbn in E; simplify_eq; try done. by destruct k.
  - apply app_eq_app_cons2 in E as [(k & E)|[(ka & kb & E1 & _ & E)|(k & _ & E)]].
    + destruct (passed_one_dial_each _ _ _ _ _ _ _ _ _ _ _ Hp Hnd E Hd1 Hd2).
    + destruct kb as [|x kb]; cbn in E; simplify_eq; try done.
      apply passed_increasing in Hp. apply saving_increasing in Hs.
      destruct e1 as [s1 v1], e2 as [s2 v2]. cbn [fst].
      assert (t0 <= s1 <= endTime t0 (l1 ++ (s1, v1) :: ka)).
      { eapply increasing_elem; [done|]. apply elem_of_app. right. by left. }
      assert (t1 <= s2 <= endTime t1 (kb ++ (s2, v2) :: l3)).
      { eapply increasing_elem; [done|]. apply elem_of_app. right. by left. }
      lia.
    + destruct k as [|x k]; cbn in E; simplify_eq; try done.
      eauto.
Qed.

(** X15. With hosts that are all different, no host is saved twice in a
    row: in the Saving phase, between two calls of saveBlocking on the same
    host lies the end of a pass and its pause, so that the second dial comes
    no earlier than 10 seconds after the first. *)
Theorem same_host_is_dialled_again_after_pause fuel ctx addrs w l1 e1 l2 e2 l3 a :
  let w1 := snd (disableAll addrs w) in
  NoDup addrs ->
  since w1 (snd (do fuel ctx addrs w)) = l1 ++ e1 :: l2 ++ e2 :: l3 ->
  dialOf (15 * Second) e1 = Some a -> dialOf (15 * Second) e2 = Some a ->
  fst e1 + 10 * Second <= fst e2.
Proof.
  cbv zeta. intros Hnd. destruct addrs as [|a0 rest].
  { rewrite do_empty. cbn. rewrite since_refl. by destruct l1. }
  rewrite do_passes by done.
  destruct (passes fuel ctx (a0 :: rest) (disableAll (a0 :: rest) w).2) as [r w'] eqn:E.
  cbn [snd]. apply passes_saving in E as (new & Ht & _ & Hs). rewrite (since_app Ht).
  intros E. by eapply saving_dials_spaced.
Qed.

(** * The further properties on the runs of the examples *)

(** X2, on the save that has ended at the first poll. *)
Lemma trigger_follows_first_read_witness :
  let out := saveBlocking 1 ctx60 hostA (start quickSave) in
  let e := (3 * ms, ECmd hostA ["BGSAVE"] ROther) in
  exists t1 t2 prev rb,
    take 2 (trace (snd out))
    = [(t1, EDial hostA (15 * Second) None); (t2, ECmd hostA ["LASTSAVE"] (RInt prev))] /\
    snd e = ECmd hostA ["BGSAVE"] rb /\
    count isTrigger (drop 3 (trace (snd out))) = 0%nat /\
    forall err, Err rb = Some err ->
                drop 3 (trace (snd out)) = [(fst e, EClose hostA)] /\
                fst out = Returned (Some err).
Proof.
  apply (trigger_follows_first_read 1 ctx60 hostA (start quickSave)
           (take 2 (trace (snd (saveBlocking 1 ctx60 hostA (start quickSave)))))
           (3 * ms, ECmd hostA ["BGSAVE"] ROther)
           (drop 3 (trace (snd (saveBlocking 1 ctx60 hostA (start quickSave)))))).
  - vm_compute. reflexivity.
  - vm_compute. reflexivity.
Defined.

(** X3, on the save that has ended at the second poll: the trigger is
    answered at 3 ms, the second read at 20.004 s. *)
Lemma polls_keep_ticker_pace_witness :
  let new := since (start twoPolls) (snd (saveBlocking 2 ctx60 hostA (start twoPolls))) in
  3 * ms + (Z.of_nat (count isRead (take 3 (afterTrigger new))) + 1) * (10 * Second)
  <= fst (20004 * ms, ECmd hostA ["LASTSAVE"] (RInt 102)).
Proof.
  apply (polls_keep_ticker_pace 2 ctx60 hostA (start twoPolls) (3 * ms)
           (take 3 (afterTrigger
              (since (start twoPolls) (snd (saveBlocking 2 ctx60 hostA (start twoPolls))))))
           (20004 * ms, ECmd hostA ["LASTSAVE"] (RInt 102))
           [(20004 * ms, EClose hostA)]).
  - vm_compute. reflexivity.
  - vm_compute. reflexivity.
  - vm_compute. reflexivity.
Defined.

(** X4, on the typical run: the save of A, over when the first poll is
    answered, is logged with 10.004 s. *)
Lemma saved_in_at_least_ten_seconds_witness :
  hostA ∈ [hostA; hostB] /\ 10 * Second <= 10004 * ms /\
  now (start typicalRun) <= 10007 * ms - 10004 * ms.
Proof.
  apply (saved_in_at_least_ten_seconds 6 ctx60 [hostA; hostB] (start typicalRun)
           (10007 * ms) hostA (10004 * ms)).
  apply (list_elem_of_lookup_2 _ 11%nat). vm_compute. reflexivity.
Defined.

(** X5, on two hosts whose dials time out while persistence is disabled:
    the context of 8 s is done after 10 s, and A is dialled all the same. *)
Lemma expired_context_still_dials_first_host_witness :
  let w1 := snd (disableAll [hostA; hostB] (start slowDisable)) in
  let new := since w1 (snd (do 2 ctx8 [hostA; hostB] (start slowDisable))) in
  dialsOf (15 * Second) new = [hostA] /\ count isPause new = 0%nat.
Proof.
  apply (expired_context_still_dials_first_host 1 ctx8 hostA [hostB] (start slowDisable)).
  vm_compute. discriminate.
Defined.

(** X6, on the typical run: the first save trigger, sent to A. *)
Lemma disabling_precedes_every_trigger_witness :
  dialsOf (5 * Second) (take 7 typicalTrace) = [hostA; hostB] /\
  dialsOf (5 * Second) (drop 8 typicalTrace) = [].
Proof.
  apply (disabling_precedes_every_trigger 6 ctx60 [hostA; hostB] (start typicalRun)
           (take 7 typicalTrace) firstTrigger (drop 8 typicalTrace)).
  - vm_compute. reflexivity.
  - vm_compute. reflexivity.
Defined.

(** X7, on the typical run: the first pause, over at 40.011 s, comes after
    the pass that ended at 30.011 s. *)
Lemma pause_follows_whole_passes_witness :
  let w1 := snd (disableAll [hostA; hostB] (start typicalRun)) in
  let l1 := take 16 (drop 5 typicalTrace) in
  (exists k, dialsOf (15 * Second) l1 = concat (replicate (S k) [hostA; hostB])) /\
  endTime (now w1) l1 < deadline ctx60 /\
  endTime (now w1) l1 + 10 * Second <= fst (40011 * ms, ERecv TimeAfter).
Proof.
  apply (pause_follows_whole_passes 6 ctx60 [hostA; hostB] (start typicalRun)
           (take 16 (drop 5 typicalTrace)) (40011 * ms, ERecv TimeAfter)
           (drop 22 typicalTrace)).
  - vm_compute. reflexivity.
  - vm_compute. reflexivity.
Defined.

(** X8, on the file with CRLF line ends: the two hosts come out bare. *)
Lemma readLines_gives_the_lines_witness :
  (forall tail,
     hasLF tail = false -> Z.of_nat (String.length tail) < MaxScanTokenSize ->
     dosDisk "hosts" = Scanner (unlines [(hostA ++ String CR "")%string] ++ tail) None ->
     readLines dosDisk "hosts"
     = (map TrimSpace ([(hostA ++ String CR "")%string]
                       ++ match tail with EmptyString => [] | _ => [tail] end), None)) /\
  (forall long rest,
     hasLF long = false -> MaxScanTokenSize <= Z.of_nat (String.length long) ->
     dosDisk "hosts"
     = Scanner (unlines [(hostA ++ String CR "")%string] ++ long ++ rest) None ->
     readLines dosDisk "hosts"
     = (map TrimSpace [(hostA ++ String CR "")%string], Some ErrTooLong)).
Proof.
  apply (readLines_gives_the_lines dosDisk "hosts" [(hostA ++ String CR "")%string] None).
  repeat constructor.
Defined.

Example dosFile_hosts : readLines dosDisk "hosts" = ([hostA; hostB], None).
Proof. vm_compute. reflexivity. Qed.

(** X10, on the file of two hosts. *)
Lemma readLines_reads_back_hosts_witness :
  readLines hostsDisk "hosts" = ([hostA; hostB], None).
Proof.
  apply (readLines_reads_back_hosts hostsDisk "hosts" [hostA; hostB] None).
  - repeat constructor.
  - reflexivity.
Defined.


(** X14, on the typical run, started by [main] with a requested deadline
    of 0: it ends at 60 s. *)
Lemma main_returns_after_deadline_witness :
  let out := main 6 {| Deadline := 0; Addresses := "hosts" |} plainDisk (fun k => k)
                  (start typicalRun) in
  now (start typicalRun) + Minute
  <= now (start typicalRun) + Deadline (floorDeadline {| Deadline := 0; Addresses := "hosts" |}) /\
  now (start typicalRun) + Deadline (floorDeadline {| Deadline := 0; Addresses := "hosts" |})
  <= now (snd out).
Proof.
  apply (main_returns_after_deadline 6 {| Deadline := 0; Addresses := "hosts" |} plainDisk
           (fun k => k) (start typicalRun)).
  vm_compute. reflexivity.
Defined.

(** X15, on the typical run: A is dialled at 4 ms and again, in the second
    pass, at 40.012 s. *)
Lemma same_host_is_dialled_again_after_pause_witness :
  fst (4 * ms, EDial hostA (15 * Second) None) + 10 * Second
  <= fst (40012 * ms, EDial hostA (15 * Second) refused).
Proof.
  apply (same_host_is_dialled_again_after_pause 6 ctx60 [hostA; hostB] (start typicalRun)
           [] (4 * ms, EDial hostA (15 * Second) None)
           (take 16 (drop 6 typicalTrace))
           (40012 * ms, EDial hostA (15 * Second) refused)
           (drop 23 typicalTrace) hostA).
  - apply (bool_decide_unpack _). vm_compute. exact I.
  - vm_compute. reflexivity.
  - reflexivity.
  - reflexivity.
Defined.
